(** * Exploded-view window assembly: layout, interpolation and timeline

    A shallow embedding of the animation core of the repository:

    - [types.ts]          : [PartConfig] (Module [Types]);
    - [AnimatedPart.tsx]  : the per-frame interpolation run inside
                            [useFrame] (Module [AnimatedPart]);
    - [WindowScene.tsx]   : the part list built inside [useMemo]
                            (Module [WindowScene]);
    - [App.tsx]           : the handlers and the animation loop that own
                            [progressRef] (Module [App]).

    JavaScript numbers are modelled twice.  The modules above take
    them as exact rationals [Q], with [Qeq] (written [==]) for equality
    of numbers.  Module [F64] transcribes the interpolation and the
    part list once more over IEEE 754 binary64, where the values the
    code computes are evaluated and rounding shows. *)

From Stdlib Require Import ZArith QArith Qminmax Qpower Lqa Lia List String
  Bool.
From Stdlib Require Import Floats.PrimFloat.
Import ListNotations.

#[local] Set Warnings "-inexact-float".

Local Open Scope Q_scope.

(** ** Numeric helpers: the JavaScript and three.js primitives used *)

Module Num.

(** [a < b] as the boolean test of a conditional expression. *)
Definition ltb (a b : Q) : bool := negb (Qle_bool b a).

(** [a >= b]. *)
Definition geb (a b : Q) : bool := Qle_bool b a.

(** [Math.min(a, b)] and [Math.max(a, b)]. *)
Definition min (a b : Q) : Q := if Qle_bool a b then a else b.
Definition max (a b : Q) : Q := if Qle_bool a b then b else a.

(** three.js [MathUtils.clamp(value, min, max)], which is
    [Math.max(min, Math.min(max, value))]. *)
Definition clamp (value lo hi : Q) : Q := max lo (min hi value).

(** [Math.pow(x, 3)]. *)
Definition pow3 (x : Q) : Q := x ^ 3.

End Num.

(** ** types.ts *)

Module Types.

Definition Vec3 : Type := (Q * Q * Q)%type.

Definition vx (v : Vec3) : Q := fst (fst v).
Definition vy (v : Vec3) : Q := snd (fst v).
Definition vz (v : Vec3) : Q := snd v.

(** Component-wise numeric equality of two triples. *)
Definition veq (a b : Vec3) : Prop :=
  vx a == vx b /\ vy a == vy b /\ vz a == vz b.

(** The three coordinate axes of a triple. *)
Inductive Axis : Type := X | Y | Z.

Definition coord (ax : Axis) (v : Vec3) : Q :=
  match ax with X => vx v | Y => vy v | Z => vz v end.

(** [x] lies in the closed interval spanned by [a] and [b], whichever
    of the two is the smaller. *)
Definition between (x a b : Q) : Prop :=
  (a <= x /\ x <= b) \/ (b <= x /\ x <= a).

Inductive PartType : Type := box | plane | custom.

Record PartConfig : Type := mkPart {
  id : string;
  name : string;
  type : PartType;
  color : string;
  args : Vec3;            (* width, height, depth *)
  assembledPos : Vec3;
  explodedPos : Vec3;
  rotation : option Vec3;
  delay : Q;              (* 0 to 1, when this part starts moving *)
  duration : Q;           (* 0 to 1, how long it takes *)
  opacity : option Q;
  metalness : option Q;
  roughness : option Q
}.

Definition PartList : Type := list PartConfig.

End Types.

Import Types.

(** ** AnimatedPart.tsx: the body of the [useFrame] callback *)

Module AnimatedPart.

(** [let localP = (globalP - config.delay) / config.duration;
     localP = MathUtils.clamp(localP, 0, 1);]
    Division by zero is [0] in [Q]; every statement below about
    [localRaw] is for a positive duration or for a part of the layout,
    where durations are positive. *)
Definition localRaw (config : PartConfig) (globalP : Q) : Q :=
  (globalP - delay config) / duration config.

Definition localP (config : PartConfig) (globalP : Q) : Q :=
  Num.clamp (localRaw config globalP) 0 1.

(** [localP < 0.5 ? 4 * localP * localP * localP
                  : 1 - Math.pow(-2 * localP + 2, 3) / 2] *)
Definition ease (p : Q) : Q :=
  if Num.ltb p (1#2)
  then 4 * p * p * p
  else 1 - Num.pow3 (-(2) * p + 2) / 2.

(** three.js [Vector3.lerpVectors(v1, v2, alpha)]:
    each component is [v1.c + (v2.c - v1.c) * alpha]. *)
Definition lerp (a b alpha : Q) : Q := a + (b - a) * alpha.

Definition lerpVectors (v1 v2 : Vec3) (alpha : Q) : Vec3 :=
  (lerp (vx v1) (vx v2) alpha,
   lerp (vy v1) (vy v2) alpha,
   lerp (vz v1) (vz v2) alpha).

(** The position written to the mesh for the current progress. *)
Definition position (config : PartConfig) (globalP : Q) : Vec3 :=
  let t := ease (localP config globalP) in
  lerpVectors (explodedPos config) (assembledPos config) t.

End AnimatedPart.

(** ** WindowScene.tsx: the part list built inside [useMemo] *)

Module WindowScene.

(** Architectural colours ([COLORS]). *)
Definition STEEL_STRUCT : string := "#71717a".
Definition YELLOW_INSULATION : string := "#fde047".
Definition TIMBER_FRAME : string := "#9a3412".
Definition EXTERIOR_CLADDING : string := "#18181b".
Definition GLASS : string := "#a5f3fc".

(** An object literal that leaves the optional fields out. *)
Definition part (i n c : string) (a asm expl : Vec3) (dl du : Q)
  : PartConfig :=
  mkPart i n box c a asm expl None dl du None None None.

(** [list.push(p)]. *)
Definition push (list : PartList) (p : PartConfig)
  : PartList := list ++ [p].

(** [list.find(p => p.id === key)]. *)
Definition find (key : string) (list : PartList)
  : option PartConfig :=
  List.find (fun p => String.eqb (id p) key) list.

Definition set_args (v : Vec3) (p : PartConfig) : PartConfig :=
  mkPart (id p) (name p) (type p) (color p) v (assembledPos p)
         (explodedPos p) (rotation p) (delay p) (duration p)
         (opacity p) (metalness p) (roughness p).

Definition set_assembledPos (v : Vec3) (p : PartConfig) : PartConfig :=
  mkPart (id p) (name p) (type p) (color p) (args p) v
         (explodedPos p) (rotation p) (delay p) (duration p)
         (opacity p) (metalness p) (roughness p).

(** [list.find(p => p.id === key)!.field = v]: the first entry with
    that id is mutated in place; when there is none the assignment
    throws, which is [None] here. *)
Fixpoint patch (key : string) (f : PartConfig -> PartConfig)
         (list : PartList) : option (PartList) :=
  match list with
  | [] => None
  | p :: rest =>
      if String.eqb (id p) key then Some (f p :: rest)
      else match patch key f rest with
           | Some rest' => Some (p :: rest')
           | None => None
           end
  end.

Definition andThen {A B : Type} (m : option A) (k : A -> option B)
  : option B :=
  match m with Some a => k a | None => None end.

Notation "m >>= k" := (andThen m k) (at level 50, left associativity).

Section Layout.

(** Dimensions and configuration. *)
Variables BoxW BoxH Depth BeamSize : Q.
Variables ExplodeZ ExplodeXY : Q.

(** 1. Wall rails. *)
Definition railH : Q := BoxH + 0.6.
Definition railX : Q := BoxW / 2 - BeamSize / 2.

(** 2. Steel skeleton. *)
Definition beamLen : Q := Depth.
Definition beamZ : Q := Depth / 2.
Definition beamY_Top : Q := BoxH / 2 - BeamSize / 2.
Definition beamY_Bot : Q := - (BoxH / 2 - BeamSize / 2).
Definition beamX_Left : Q := - (BoxW / 2 - BeamSize / 2).
Definition beamX_Right : Q := BoxW / 2 - BeamSize / 2.

Definition beams : list (string * Q * Q) :=
  [ ("beam-tl"%string, beamX_Left, beamY_Top);
    ("beam-tr"%string, beamX_Right, beamY_Top);
    ("beam-bl"%string, beamX_Left, beamY_Bot);
    ("beam-br"%string, beamX_Right, beamY_Bot) ].

Definition beamPart (b : string * Q * Q) : PartConfig :=
  let '(bid, x, y) := b in
  part bid "Steel Beam" STEEL_STRUCT
       (BeamSize, BeamSize, beamLen)
       (x, y, beamZ)
       (x, y, ExplodeZ * 0.2)
       0.1 0.4.

(** 3. Yellow insulation panels. *)
Definition innerW : Q := BoxW - BeamSize * 2.
Definition innerH : Q := BoxH - BeamSize * 2.

(** 4. Cladding. *)
Definition cladThick : Q := 0.03.

(** 5. Timber window frame. *)
Definition winFrameThick : Q := 0.12.
Definition winFrameDepth : Q := 0.15.
Definition winZ : Q := 0.3.
Definition winW : Q := innerW - 0.1.
Definition winH : Q := innerH - 0.1.

(** The pushes up to and including the four insulation panels. *)
Definition firstPass : PartList :=
  let list := [] in
  let list := push list
    (part "rail-left" "Wall Rail Left" STEEL_STRUCT
          (BeamSize, railH, 0.1)
          (- railX, 0, 0) (- railX, 0, 0) 0 0.1) in
  let list := push list
    (part "rail-right" "Wall Rail Right" STEEL_STRUCT
          (BeamSize, railH, 0.1)
          (railX, 0, 0) (railX, 0, 0) 0 0.1) in
  let list := fold_left (fun l b => push l (beamPart b)) beams list in
  let list := push list
    (part "yellow-top" "Insulation Top" YELLOW_INSULATION
          (innerW, BeamSize, Depth)
          (0, beamY_Top, beamZ)
          (0, beamY_Top + ExplodeXY / 2, ExplodeZ * 0.5) 0.3 0.5) in
  let list := push list
    (part "yellow-bot" "Insulation Sill" YELLOW_INSULATION
          (innerW, BeamSize, Depth)
          (0, beamY_Bot, beamZ)
          (0, beamY_Bot - ExplodeXY / 2, ExplodeZ * 0.5) 0.3 0.5) in
  let list := push list
    (part "yellow-left" "Insulation Left" YELLOW_INSULATION
          (BeamSize, innerH, Depth)
          (beamX_Left, 0, beamZ)
          (beamX_Left - ExplodeXY / 2, 0, ExplodeZ * 0.5) 0.35 0.5) in
  let list := push list
    (part "yellow-right" "Insulation Right" YELLOW_INSULATION
          (BeamSize, innerH, Depth)
          (beamX_Right, 0, beamZ)
          (beamX_Right + ExplodeXY / 2, 0, ExplodeZ * 0.5) 0.35 0.5) in
  list.

(** "3. YELLOW PANELS (Refined)": the entries are looked up again
    and overwritten, in this order. *)
Definition refine (list : PartList)
  : option (PartList) :=
  patch "yellow-top" (set_args (innerW, 0.05, Depth)) list
  >>= patch "yellow-top"
        (set_assembledPos
           (0, beamY_Top - BeamSize / 2 + 0.025, beamZ))
  >>= patch "yellow-bot" (set_args (innerW, 0.15, Depth))
  >>= patch "yellow-bot"
        (set_assembledPos
           (0, beamY_Bot + BeamSize / 2 - 0.075 + 0.15, beamZ))
  >>= patch "yellow-bot" (set_assembledPos (0, beamY_Bot, beamZ))
  >>= patch "yellow-bot" (set_args (innerW, BeamSize, Depth))
  >>= patch "yellow-left" (set_args (0.05, innerH, Depth))
  >>= patch "yellow-left"
        (set_assembledPos
           (beamX_Left + BeamSize / 2 - 0.025, 0, beamZ))
  >>= patch "yellow-right" (set_args (0.05, innerH, Depth))
  >>= patch "yellow-right"
        (set_assembledPos
           (beamX_Right - BeamSize / 2 + 0.025, 0, beamZ)).

(** The pushes after the refinement: cladding, timber frame, glass. *)
Definition secondPass (list : PartList) : PartList :=
  let list := push list
    (part "clad-top" "Cladding Top" EXTERIOR_CLADDING
          (BoxW, cladThick, Depth)
          (0, beamY_Top + BeamSize / 2 + cladThick / 2, beamZ)
          (0, beamY_Top + ExplodeXY, ExplodeZ) 0.6 0.4) in
  let list := push list
    (part "clad-bot" "Cladding Bot" EXTERIOR_CLADDING
          (BoxW, cladThick, Depth)
          (0, beamY_Bot - BeamSize / 2 - cladThick / 2, beamZ)
          (0, beamY_Bot - ExplodeXY, ExplodeZ) 0.6 0.4) in
  let list := push list
    (part "clad-left" "Cladding Left" EXTERIOR_CLADDING
          (cladThick, BoxH + 0.1, Depth)
          (beamX_Left - BeamSize / 2 - cladThick / 2, 0, beamZ)
          (beamX_Left - ExplodeXY, 0, ExplodeZ) 0.65 0.4) in
  let list := push list
    (part "clad-right" "Cladding Right" EXTERIOR_CLADDING
          (cladThick, BoxH + 0.1, Depth)
          (beamX_Right + BeamSize / 2 + cladThick / 2, 0, beamZ)
          (beamX_Right + ExplodeXY, 0, ExplodeZ) 0.65 0.4) in
  let list := push list
    (part "win-top" "Window Top" TIMBER_FRAME
          (winW, winFrameThick, winFrameDepth)
          (0, winH / 2 - winFrameThick / 2, winZ)
          (0, winH / 2, ExplodeZ * 0.8) 0.45 0.5) in
  let list := push list
    (part "win-bot" "Window Bot" TIMBER_FRAME
          (winW, winFrameThick, winFrameDepth)
          (0, - (winH / 2 - winFrameThick / 2), winZ)
          (0, - winH / 2, ExplodeZ * 0.8) 0.45 0.5) in
  let list := push list
    (part "win-left" "Window Left" TIMBER_FRAME
          (winFrameThick, winH - 2 * winFrameThick, winFrameDepth)
          (- (winW / 2 - winFrameThick / 2), 0, winZ)
          (- winW / 2, 0, ExplodeZ * 0.8) 0.5 0.5) in
  let list := push list
    (part "win-right" "Window Right" TIMBER_FRAME
          (winFrameThick, winH - 2 * winFrameThick, winFrameDepth)
          (winW / 2 - winFrameThick / 2, 0, winZ)
          (winW / 2, 0, ExplodeZ * 0.8) 0.5 0.5) in
  let list := push list
    (mkPart "glass" "Glass" box GLASS
            (winW - 2 * winFrameThick + 0.05,
             winH - 2 * winFrameThick + 0.05, 0.02)
            (0, 0, winZ)
            (0, 0, ExplodeZ * 0.9)
            None 0.55 0.5
            (Some 0.3) (Some 0.9) (Some 0.05)) in
  list.

Definition build : option (PartList) :=
  refine firstPass >>= fun list => Some (secondPass list).

End Layout.

(** The constants of the source:
    [BoxW = 2.8], [BoxH = 1.9], [Depth = 0.8], [BeamSize = 0.14],
    [ExplodeZ = 5.0], [ExplodeXY = 2.5]. *)
Definition parts : PartList :=
  match build 2.8 1.9 0.8 0.14 5.0 2.5 with
  | Some list => list
  | None => []
  end.

(** The mesh of a part is a box of size [args] centred at the
    interpolated position (no part of the layout has a rotation):
    its lower and upper face along an axis at progress [g]. *)
Definition lo (ax : Axis) (p : PartConfig) (g : Q) : Q :=
  coord ax (AnimatedPart.position p g) - coord ax (args p) / 2.

Definition hi (ax : Axis) (p : PartConfig) (g : Q) : Q :=
  coord ax (AnimatedPart.position p g) + coord ax (args p) / 2.

(** [panel] fits between the members [a] (below) and [b] (above)
    along [ax]: its two faces lie in the planes of the members' facing
    faces, so its extent is the span between them. *)
Definition fitsBetween (ax : Axis) (panel a b : PartConfig) (g : Q)
  : Prop :=
  lo ax panel g == hi ax a g /\
  hi ax panel g == lo ax b g /\
  coord ax (args panel) == lo ax b g - hi ax a g.

(** The designed adjacencies, as the source comments give them:
    "Top Yellow fits between TL and TR beams.  Bot Yellow fits between
    BL and BR beams.  Left Yellow fits between TL and BL beams.  Right
    Yellow fits between TR and BR beams."  Each entry names the panel,
    the shared axis, and the member on the lower and on the upper
    side. *)
Definition infill : list (string * Axis * string * string) :=
  [ ("yellow-top"%string, X, "beam-tl"%string, "beam-tr"%string);
    ("yellow-bot"%string, X, "beam-bl"%string, "beam-br"%string);
    ("yellow-left"%string, Y, "beam-bl"%string, "beam-tl"%string);
    ("yellow-right"%string, Y, "beam-br"%string, "beam-tr"%string) ].

(** The panel of a designed adjacency fits between its two members in
    [list] at progress [g]. *)
Definition fits (list : PartList) (g : Q)
           (e : string * Axis * string * string) : Prop :=
  let '(panel, ax, below, above) := e in
  exists P A B,
    find panel list = Some P /\
    find below list = Some A /\
    find above list = Some B /\
    fitsBetween ax P A B g.

End WindowScene.

(** ** App.tsx: the state, the handlers and the animation loop *)

Module App.

(** The React state ([isPlaying], [uiProgress], [speed]) and the refs
    ([progressRef], [lastTimeRef]).  [frameRequested] stands for
    [requestRef]: whether a callback registered with
    [requestAnimationFrame] is outstanding. *)
Record State : Type := mkState {
  isPlaying : bool;
  uiProgress : Q;          (* 0-100 for the slider *)
  speed : Q;
  progressRef : Q;         (* 0.0 - 1.0 internal precision *)
  frameRequested : bool;
  lastTimeRef : option Q   (* [undefined] is [None] *)
}.

(** [useState(false)], [useState(0)], [useState(0.8)], [useRef(0)]. *)
Definition init : State := mkState false 0 0.8 0 false None.

(** [handleSeek(val)]. *)
Definition handleSeek (val : Q) (s : State) : State :=
  mkState false val (speed s) (val / 100)
          (frameRequested s) (lastTimeRef s).

(** [handleReset()]. *)
Definition handleReset (s : State) : State :=
  mkState false 0 (speed s) 0 (frameRequested s) (lastTimeRef s).

(** [animate(time)], the callback of [requestAnimationFrame]. *)
Definition animate (time : Q) (s : State) : State :=
  match lastTimeRef s with
  | Some lastTime =>
      let deltaTime := (time - lastTime) / 1000 in
      let increment := (deltaTime * speed s) / 3 in
      if Num.ltb (progressRef s) 1 then
        let p := Num.min (progressRef s + increment) 1 in
        mkState (isPlaying s) (p * 100) (speed s) p true (Some time)
      else
        (* Animation complete: stop loop *)
        mkState false 100 (speed s) 1 false (lastTimeRef s)
  | None =>
      mkState (isPlaying s) (uiProgress s) (speed s) (progressRef s)
              true (Some time)
  end.

(** The [useEffect] on [isPlaying] and [animate], run at time [now]
    ([performance.now()]). *)
Definition effect (now : Q) (s : State) : State :=
  if isPlaying s then
    mkState (isPlaying s) (uiProgress s) (speed s) (progressRef s)
            true (Some now)
  else
    mkState (isPlaying s) (uiProgress s) (speed s) (progressRef s)
            false None.

(** [handlePlayPause()]. *)
Definition handlePlayPause (s : State) : State :=
  let s1 :=
    if negb (isPlaying s) && Num.geb (progressRef s) 1 then
      mkState (isPlaying s) 0 (speed s) 0
              (frameRequested s) (lastTimeRef s)
    else s in
  mkState (negb (isPlaying s)) (uiProgress s1) (speed s1)
          (progressRef s1) (frameRequested s1) (lastTimeRef s1).

(** [onSpeedChange={setSpeed}]. *)
Definition setSpeed (value : Q) (s : State) : State :=
  mkState (isPlaying s) (uiProgress s) value (progressRef s)
          (frameRequested s) (lastTimeRef s).

(** A frame delivered [elapsedSeconds] after the previous one: the
    callback runs with [time = lastTime + 1000 * elapsedSeconds].
    Without a previous timestamp the callback only records one. *)
Definition tick (elapsedSeconds : Q) (s : State) : State :=
  match lastTimeRef s with
  | Some lastTime => animate (lastTime + 1000 * elapsedSeconds) s
  | None => animate (1000 * elapsedSeconds) s
  end.

(** A run of frames, and the progress value after each of them. *)
Definition ticks (elapsed : list Q) (s : State) : State :=
  fold_left (fun st e => tick e st) elapsed s.

Fixpoint trace (elapsed : list Q) (s : State) : list Q :=
  match elapsed with
  | [] => []
  | e :: rest => progressRef (tick e s) :: trace rest (tick e s)
  end.

(** The operations on the animation state. *)
Inductive Op : Type :=
| Tick (elapsedSeconds : Q)
| Seek (val : Q)
| Reset
| PlayPause.

Definition step (o : Op) (s : State) : State :=
  match o with
  | Tick e => tick e s
  | Seek v => handleSeek v s
  | Reset => handleReset s
  | PlayPause => handlePlayPause s
  end.

Definition steps (ops : list Op) (s : State) : State :=
  fold_left (fun st o => step o st) ops s.

(** A state in which the loop is running: a previous timestamp is
    recorded. *)
Definition running (s : State) : Prop := lastTimeRef s <> None.

(** [progress] within the closed unit interval. *)
Definition inUnit (p : Q) : Prop := 0 <= p /\ p <= 1.

(** Each value of [l] is at least its predecessor, starting from [p]. *)
Fixpoint nondecreasing (p : Q) (l : list Q) : Prop :=
  match l with
  | [] => True
  | q :: rest => p <= q /\ nondecreasing q rest
  end.

(** The inputs the presentation layer delivers: frames with a
    non-negative elapsed time, and seek values of the range slider
    ([min="0"], [max="100"]). *)
Definition inRange (o : Op) : Prop :=
  match o with
  | Tick e => 0 <= e
  | Seek v => 0 <= v /\ v <= 100
  | Reset => True
  | PlayPause => True
  end.

(** Pressing play in the initial state: [handlePlayPause], then the
    effect at time [now]. *)
Definition started (now : Q) (s : State) : State :=
  effect now (handlePlayPause s).

End App.

(** ** The same code over IEEE 754 binary64

    JavaScript numbers are binary64 values, and [+], [-], [*], [/] on
    them round to nearest, ties to even, as the primitive floats do.
    This module transcribes the interpolation and the part list once
    more over [float], so that a statement can be evaluated as the code
    evaluates it; the modules above are the same expressions in exact
    arithmetic. *)

Module F64.

Local Open Scope float_scope.

Definition Vec3 : Type := (float * float * float)%type.

Definition vx (v : Vec3) : float := fst (fst v).
Definition vy (v : Vec3) : float := snd (fst v).
Definition vz (v : Vec3) : float := snd v.

Definition coord (ax : Axis) (v : Vec3) : float :=
  match ax with X => vx v | Y => vy v | Z => vz v end.

(** [a === b] on numbers. *)
Definition same (a b : float) : Prop := (a =? b) = true.

(** [|a - b| <= tol]. *)
Definition near (tol a b : float) : Prop := (abs (a - b) <=? tol) = true.

(** A rounding allowance: four to five units in the last place of a
    number near 1. *)
Definition tol : float := 1e-15.

Record PartConfig : Type := mkPart {
  id : string;
  name : string;
  type : PartType;
  color : string;
  args : Vec3;
  assembledPos : Vec3;
  explodedPos : Vec3;
  rotation : option Vec3;
  delay : float;
  duration : float;
  opacity : option float;
  metalness : option float;
  roughness : option float
}.

Definition PartList : Type := list PartConfig.

(** [Math.min] and [Math.max]: [NaN] if an argument is [NaN], and
    [-0] counts as smaller than [+0]. *)
Definition min (a b : float) : float :=
  if is_nan a then a else if is_nan b then b
  else if a <? b then a else if b <? a then b
  else if get_sign a then a else b.

Definition max (a b : float) : float :=
  if is_nan a then a else if is_nan b then b
  else if a <? b then b else if b <? a then a
  else if get_sign a then b else a.

(** three.js [MathUtils.clamp(value, min, max)]. *)
Definition clamp (value lo hi : float) : float := max lo (min hi value).

(** [(globalP - config.delay) / config.duration], clamped. *)
Definition localP (config : PartConfig) (globalP : float) : float :=
  clamp ((globalP - delay config) / duration config) 0 1.

(** The easing expression with [cube] for the value of
    [Math.pow(-2 * localP + 2, 3)]. *)
Definition easeWith (cube p : float) : float :=
  if p <? 0.5 then 4 * p * p * p else 1 - cube / 2.

(** [Math.pow(b, 3)].  ECMA-262 leaves [Math.pow] implementation-
    approximated and fixes its value at a zero base ([+0]); it is taken
    here as the rounded product, which is [+0] at [+0]. *)
Definition pow3 (b : float) : float := b * b * b.

(** [localP < 0.5 ? 4 * localP * localP * localP
                  : 1 - Math.pow(-2 * localP + 2, 3) / 2]. *)
Definition ease (p : float) : float := easeWith (pow3 (-2 * p + 2)) p.

(** The floats up to [n] steps below and above [x]: the values an
    implementation of [Math.pow] accurate to [n] units in the last
    place of the product can return. *)
Fixpoint below (n : nat) (x : float) : list float :=
  match n with
  | O => []
  | S k => next_down x :: below k (next_down x)
  end.

Fixpoint above (n : nat) (x : float) : list float :=
  match n with
  | O => []
  | S k => next_up x :: above k (next_up x)
  end.


(** three.js [Vector3.lerpVectors(v1, v2, alpha)]. *)
Definition lerp (a b alpha : float) : float := a + (b - a) * alpha.

Definition lerpVectors (v1 v2 : Vec3) (alpha : float) : Vec3 :=
  (lerp (vx v1) (vx v2) alpha,
   lerp (vy v1) (vy v2) alpha,
   lerp (vz v1) (vz v2) alpha).

Definition position (config : PartConfig) (globalP : float) : Vec3 :=
  let t := ease (localP config globalP) in
  lerpVectors (explodedPos config) (assembledPos config) t.

(** Architectural colours ([COLORS]). *)
Definition STEEL_STRUCT : string := "#71717a".
Definition YELLOW_INSULATION : string := "#fde047".
Definition TIMBER_FRAME : string := "#9a3412".
Definition EXTERIOR_CLADDING : string := "#18181b".
Definition GLASS : string := "#a5f3fc".

(** An object literal that leaves the optional fields out. *)
Definition part (i n c : string) (a asm expl : Vec3) (dl du : float)
  : PartConfig :=
  mkPart i n box c a asm expl None dl du None None None.

(** [list.push(p)]. *)
Definition push (list : PartList) (p : PartConfig)
  : PartList := list ++ [p].

(** [list.find(p => p.id === key)]. *)
Definition find (key : string) (list : PartList)
  : option PartConfig :=
  List.find (fun p => String.eqb (id p) key) list.

Definition set_args (v : Vec3) (p : PartConfig) : PartConfig :=
  mkPart (id p) (name p) (type p) (color p) v (assembledPos p)
         (explodedPos p) (rotation p) (delay p) (duration p)
         (opacity p) (metalness p) (roughness p).

Definition set_assembledPos (v : Vec3) (p : PartConfig) : PartConfig :=
  mkPart (id p) (name p) (type p) (color p) (args p) v
         (explodedPos p) (rotation p) (delay p) (duration p)
         (opacity p) (metalness p) (roughness p).

(** [list.find(p => p.id === key)!.field = v]: the first entry with
    that id is mutated in place; when there is none the assignment
    throws, which is [None] here. *)
Fixpoint patch (key : string) (f : PartConfig -> PartConfig)
         (list : PartList) : option (PartList) :=
  match list with
  | [] => None
  | p :: rest =>
      if String.eqb (id p) key then Some (f p :: rest)
      else match patch key f rest with
           | Some rest' => Some (p :: rest')
           | None => None
           end
  end.

Definition andThen {A B : Type} (m : option A) (k : A -> option B)
  : option B :=
  match m with Some a => k a | None => None end.

Notation "m >>= k" := (andThen m k) (at level 50, left associativity).

Section Layout.

(** Dimensions and configuration. *)
Variables BoxW BoxH Depth BeamSize : float.
Variables ExplodeZ ExplodeXY : float.

(** 1. Wall rails. *)
Definition railH : float := BoxH + 0.6.
Definition railX : float := BoxW / 2 - BeamSize / 2.

(** 2. Steel skeleton. *)
Definition beamLen : float := Depth.
Definition beamZ : float := Depth / 2.
Definition beamY_Top : float := BoxH / 2 - BeamSize / 2.
Definition beamY_Bot : float := - (BoxH / 2 - BeamSize / 2).
Definition beamX_Left : float := - (BoxW / 2 - BeamSize / 2).
Definition beamX_Right : float := BoxW / 2 - BeamSize / 2.

Definition beams : list (string * float * float) :=
  [ ("beam-tl"%string, beamX_Left, beamY_Top);
    ("beam-tr"%string, beamX_Right, beamY_Top);
    ("beam-bl"%string, beamX_Left, beamY_Bot);
    ("beam-br"%string, beamX_Right, beamY_Bot) ].

Definition beamPart (b : string * float * float) : PartConfig :=
  let '(bid, x, y) := b in
  part bid "Steel Beam" STEEL_STRUCT
       (BeamSize, BeamSize, beamLen)
       (x, y, beamZ)
       (x, y, ExplodeZ * 0.2)
       0.1 0.4.

(** 3. Yellow insulation panels. *)
Definition innerW : float := BoxW - BeamSize * 2.
Definition innerH : float := BoxH - BeamSize * 2.

(** 4. Cladding. *)
Definition cladThick : float := 0.03.

(** 5. Timber window frame. *)
Definition winFrameThick : float := 0.12.
Definition winFrameDepth : float := 0.15.
Definition winZ : float := 0.3.
Definition winW : float := innerW - 0.1.
Definition winH : float := innerH - 0.1.

(** The pushes up to and including the four insulation panels. *)
Definition firstPass : PartList :=
  let list := [] in
  let list := push list
    (part "rail-left" "Wall Rail Left" STEEL_STRUCT
          (BeamSize, railH, 0.1)
          (- railX, 0, 0) (- railX, 0, 0) 0 0.1) in
  let list := push list
    (part "rail-right" "Wall Rail Right" STEEL_STRUCT
          (BeamSize, railH, 0.1)
          (railX, 0, 0) (railX, 0, 0) 0 0.1) in
  let list := fold_left (fun l b => push l (beamPart b)) beams list in
  let list := push list
    (part "yellow-top" "Insulation Top" YELLOW_INSULATION
          (innerW, BeamSize, Depth)
          (0, beamY_Top, beamZ)
          (0, beamY_Top + ExplodeXY / 2, ExplodeZ * 0.5) 0.3 0.5) in
  let list := push list
    (part "yellow-bot" "Insulation Sill" YELLOW_INSULATION
          (innerW, BeamSize, Depth)
          (0, beamY_Bot, beamZ)
          (0, beamY_Bot - ExplodeXY / 2, ExplodeZ * 0.5) 0.3 0.5) in
  let list := push list
    (part "yellow-left" "Insulation Left" YELLOW_INSULATION
          (BeamSize, innerH, Depth)
          (beamX_Left, 0, beamZ)
          (beamX_Left - ExplodeXY / 2, 0, ExplodeZ * 0.5) 0.35 0.5) in
  let list := push list
    (part "yellow-right" "Insulation Right" YELLOW_INSULATION
          (BeamSize, innerH, Depth)
          (beamX_Right, 0, beamZ)
          (beamX_Right + ExplodeXY / 2, 0, ExplodeZ * 0.5) 0.35 0.5) in
  list.

(** "3. YELLOW PANELS (Refined)": the entries are looked up again
    and overwritten, in this order. *)
Definition refine (list : PartList)
  : option (PartList) :=
  patch "yellow-top" (set_args (innerW, 0.05, Depth)) list
  >>= patch "yellow-top"
        (set_assembledPos
           (0, beamY_Top - BeamSize / 2 + 0.025, beamZ))
  >>= patch "yellow-bot" (set_args (innerW, 0.15, Depth))
  >>= patch "yellow-bot"
        (set_assembledPos
           (0, beamY_Bot + BeamSize / 2 - 0.075 + 0.15, beamZ))
  >>= patch "yellow-bot" (set_assembledPos (0, beamY_Bot, beamZ))
  >>= patch "yellow-bot" (set_args (innerW, BeamSize, Depth))
  >>= patch "yellow-left" (set_args (0.05, innerH, Depth))
  >>= patch "yellow-left"
        (set_assembledPos
           (beamX_Left + BeamSize / 2 - 0.025, 0, beamZ))
  >>= patch "yellow-right" (set_args (0.05, innerH, Depth))
  >>= patch "yellow-right"
        (set_assembledPos
           (beamX_Right - BeamSize / 2 + 0.025, 0, beamZ)).

(** The pushes after the refinement: cladding, timber frame, glass. *)
Definition secondPass (list : PartList) : PartList :=
  let list := push list
    (part "clad-top" "Cladding Top" EXTERIOR_CLADDING
          (BoxW, cladThick, Depth)
          (0, beamY_Top + BeamSize / 2 + cladThick / 2, beamZ)
          (0, beamY_Top + ExplodeXY, ExplodeZ) 0.6 0.4) in
  let list := push list
    (part "clad-bot" "Cladding Bot" EXTERIOR_CLADDING
          (BoxW, cladThick, Depth)
          (0, beamY_Bot - BeamSize / 2 - cladThick / 2, beamZ)
          (0, beamY_Bot - ExplodeXY, ExplodeZ) 0.6 0.4) in
  let list := push list
    (part "clad-left" "Cladding Left" EXTERIOR_CLADDING
          (cladThick, BoxH + 0.1, Depth)
          (beamX_Left - BeamSize / 2 - cladThick / 2, 0, beamZ)
          (beamX_Left - ExplodeXY, 0, ExplodeZ) 0.65 0.4) in
  let list := push list
    (part "clad-right" "Cladding Right" EXTERIOR_CLADDING
          (cladThick, BoxH + 0.1, Depth)
          (beamX_Right + BeamSize / 2 + cladThick / 2, 0, beamZ)
          (beamX_Right + ExplodeXY, 0, ExplodeZ) 0.65 0.4) in
  let list := push list
    (part "win-top" "Window Top" TIMBER_FRAME
          (winW, winFrameThick, winFrameDepth)
          (0, winH / 2 - winFrameThick / 2, winZ)
          (0, winH / 2, ExplodeZ * 0.8) 0.45 0.5) in
  let list := push list
    (part "win-bot" "Window Bot" TIMBER_FRAME
          (winW, winFrameThick, winFrameDepth)
          (0, - (winH / 2 - winFrameThick / 2), winZ)
          (0, - winH / 2, ExplodeZ * 0.8) 0.45 0.5) in
  let list := push list
    (part "win-left" "Window Left" TIMBER_FRAME
          (winFrameThick, winH - 2 * winFrameThick, winFrameDepth)
          (- (winW / 2 - winFrameThick / 2), 0, winZ)
          (- winW / 2, 0, ExplodeZ * 0.8) 0.5 0.5) in
  let list := push list
    (part "win-right" "Window Right" TIMBER_FRAME
          (winFrameThick, winH - 2 * winFrameThick, winFrameDepth)
          (winW / 2 - winFrameThick / 2, 0, winZ)
          (winW / 2, 0, ExplodeZ * 0.8) 0.5 0.5) in
  let list := push list
    (mkPart "glass" "Glass" box GLASS
            (winW - 2 * winFrameThick + 0.05,
             winH - 2 * winFrameThick + 0.05, 0.02)
            (0, 0, winZ)
            (0, 0, ExplodeZ * 0.9)
            None 0.55 0.5
            (Some 0.3) (Some 0.9) (Some 0.05)) in
  list.

Definition build : option (PartList) :=
  refine firstPass >>= fun list => Some (secondPass list).

End Layout.

(** The constants of the source. *)
Definition parts : PartList :=
  match build 2.8 1.9 0.8 0.14 5.0 2.5 with
  | Some list => list
  | None => []
  end.

(** The faces of the box of a part along an axis at progress [g]. *)
Definition lo (ax : Axis) (p : PartConfig) (g : float) : float :=
  coord ax (position p g) - coord ax (args p) / 2.

Definition hi (ax : Axis) (p : PartConfig) (g : float) : float :=
  coord ax (position p g) + coord ax (args p) / 2.

(** The part of the layout with id [k]; a part at the origin stands
    for an id that is not there. *)
Definition get (k : string) : PartConfig :=
  match find k parts with
  | Some p => p
  | None => part k k k (0, 0, 0) (0, 0, 0) (0, 0, 0) 0 1
  end.



End F64.

(** ** Predicates on the part list *)

Module SceneChecks.

Import WindowScene.

(** [delay] and [duration] as [types.ts] documents them ("0 to 1"),
    with the duration positive as the division in [AnimatedPart]
    needs. *)
Definition timed (p : PartConfig) : Prop :=
  (0 <= delay p /\ delay p < 1) /\ (0 < duration p /\ duration p <= 1).

(** The box of a part has a positive extent along every axis. *)
Definition solid (p : PartConfig) : Prop :=
  0 < vx (args p) /\ 0 < vy (args p) /\ 0 < vz (args p).

(** The ids of the parts whose window ends after progress 1
    ([delay + duration > 1]). *)
Definition late (l : PartList) : list string :=
  map id (filter (fun p => Num.ltb 1 (delay p + duration p)) l).

(** Reflection in the plane [x = 0]. *)
Definition mirrorX (v : Vec3) : Vec3 := (- vx v, vy v, vz v).

(** The parts the source builds as a left and a right copy. *)
Definition mirrorPairs : list (string * string) :=
  [ ("rail-left"%string, "rail-right"%string);
    ("beam-tl"%string, "beam-tr"%string);
    ("beam-bl"%string, "beam-br"%string);
    ("yellow-left"%string, "yellow-right"%string);
    ("clad-left"%string, "clad-right"%string);
    ("win-left"%string, "win-right"%string) ].

(** The two parts of a pair have the same box and timing, and at
    progress [g] the right one is the mirror image of the left one. *)
Definition mirrored (list : PartList) (g : Q) (pr : string * string)
  : Prop :=
  let '(l, r) := pr in
  exists L R,
    find l list = Some L /\
    find r list = Some R /\
    veq (args L) (args R) /\
    delay L == delay R /\ duration L == duration R /\
    veq (AnimatedPart.position R g) (mirrorX (AnimatedPart.position L g)).

(** The part with id [k] of [list] rests, at progress [g], where it is
    at progress 0. *)
Definition still (list : PartList) (k : string) (g : Q) : Prop :=
  exists p,
    find k list = Some p /\
    veq (AnimatedPart.position p g) (AnimatedPart.position p 0) /\
    veq (AnimatedPart.position p g) (assembledPos p).

(** The parts of two lists agree in everything but [args] and
    [assembledPos]. *)
Definition sameBut (p q : PartConfig) : Prop :=
  id p = id q /\ name p = name q /\ type p = type q /\
  color p = color q /\ explodedPos p = explodedPos q /\
  rotation p = rotation q /\ delay p = delay q /\
  duration p = duration q /\ opacity p = opacity q /\
  metalness p = metalness q /\ roughness p = roughness q.

End SceneChecks.

(** ** App.tsx and Controls.tsx: events, re-render and effect *)

Module AppLoop.

Import App.

(** What the controls and the browser deliver: the two buttons, the two
    range inputs ([onSeek(parseFloat(e.target.value))],
    [onSpeedChange(parseFloat(e.target.value))]) and a frame callback
    with its timestamp. *)
Inductive Event : Type :=
| PressPlayPause
| PressReset
| DragProgress (val : Q)
| DragSpeed (value : Q)
| Frame (time : Q).

(** The handler an event runs.  A frame callback runs only while a
    request is outstanding ([cancelAnimationFrame] removes it). *)
Definition handle (ev : Event) (s : State) : State :=
  match ev with
  | PressPlayPause => handlePlayPause s
  | PressReset => handleReset s
  | DragProgress v => handleSeek v s
  | DragSpeed v => setSpeed v s
  | Frame time => if frameRequested s then animate time s else s
  end.

(** The dependencies [[isPlaying, animate]] of the effect; [animate] is
    [useCallback(..., [speed])], so it changes exactly when [speed]
    does. *)
Definition depsChanged (before after : State) : bool :=
  negb (Bool.eqb (isPlaying before) (isPlaying after))
  || negb (Qeq_bool (speed before) (speed after)).

(** The re-render after a handler: the effect (its cleanup first, which
    cancels the outstanding request) runs when a dependency changed. *)
Definition dispatch (now : Q) (ev : Event) (s : State) : State :=
  let s' := handle ev s in
  if depsChanged s s' then effect now s' else s'.

(** The ranges of the two sliders of [Controls]
    ([min="0" max="100"] and [min="0.1" max="2.0"]), and frames that
    are not stamped before the recorded timestamp. *)
Definition delivered (s : State) (ev : Event) : Prop :=
  match ev with
  | DragProgress v => 0 <= v /\ v <= 100
  | DragSpeed v => 0.1 <= v /\ v <= 2.0
  | Frame time =>
      match lastTimeRef s with
      | Some lastTime => lastTime <= time
      | None => True
      end
  | PressPlayPause => True
  | PressReset => True
  end.

(** The states the application reaches from its initial state. *)
Inductive reachable : State -> Prop :=
| reach_init : reachable init
| reach_step (s : State) (now : Q) (ev : Event) :
    reachable s -> delivered s ev -> reachable (dispatch now ev s).

(** The states the application reaches from its initial state under
    any events: slider values and timestamps are not restricted. *)
Inductive reachableAny : State -> Prop :=
| any_init : reachableAny init
| any_step (s : State) (now : Q) (ev : Event) :
    reachableAny s -> reachableAny (dispatch now ev s).

(** A frame is requested, and a timestamp recorded, exactly while
    playing. *)
Definition looping (s : State) : Prop :=
  frameRequested s = isPlaying s /\
  (lastTimeRef s = None <-> isPlaying s = false).

(** The slider value and the progress were written together, by one
    of the two assignments of the source:
    [setUiProgress(progressRef.current * 100)] or
    [progressRef.current = val / 100]. *)
Definition inSync (s : State) : Prop :=
  uiProgress s = progressRef s * 100 \/
  progressRef s = uiProgress s / 100.

(** What the loop keeps true of the state: a frame is requested and a
    timestamp recorded exactly while playing, the slider value is the
    progress in percent, and progress and speed stay in their ranges. *)
Definition invariant (s : State) : Prop :=
  frameRequested s = isPlaying s /\
  (lastTimeRef s = None <-> isPlaying s = false) /\
  uiProgress s == 100 * progressRef s /\
  inUnit (progressRef s) /\
  (0.1 <= speed s /\ speed s <= 2.0).

End AppLoop.

(** * Properties *)

(** ** Facts about the numeric helpers *)

Module NumFacts.

Import Num.

Lemma ltb_lt (a b : Q) : ltb a b = true <-> a < b.
Proof.
  unfold ltb. rewrite negb_true_iff, <- not_true_iff_false, Qle_bool_iff.
  split; intro H; [apply Qnot_le_lt | apply Qlt_not_le]; exact H.
Qed.

Lemma ltb_ge (a b : Q) : ltb a b = false <-> b <= a.
Proof.
  unfold ltb. rewrite negb_false_iff. apply Qle_bool_iff.
Qed.

Lemma geb_ge (a b : Q) : geb a b = true <-> b <= a.
Proof. apply Qle_bool_iff. Qed.

Lemma ltb_ge_false (a b : Q) : a < b -> geb a b = false.
Proof.
  intro H. unfold geb. apply not_true_iff_false.
  rewrite Qle_bool_iff. apply Qlt_not_le, H.
Qed.

Lemma ltb_cases (a b : Q) :
  (ltb a b = true /\ a < b) \/ (ltb a b = false /\ b <= a).
Proof.
  destruct (ltb a b) eqn:E.
  - left. split; [reflexivity | now apply ltb_lt].
  - right. split; [reflexivity | now apply ltb_ge].
Qed.

Lemma min_cases (a b : Q) :
  (a <= b /\ min a b = a) \/ (b < a /\ min a b = b).
Proof.
  unfold min. destruct (Qle_bool a b) eqn:E.
  - left. split; [now apply Qle_bool_iff | reflexivity].
  - right. split; [| reflexivity].
    apply Qnot_le_lt. intro H. apply Qle_bool_iff in H. congruence.
Qed.

Lemma max_cases (a b : Q) :
  (a <= b /\ max a b = b) \/ (b < a /\ max a b = a).
Proof.
  unfold max. destruct (Qle_bool a b) eqn:E.
  - left. split; [now apply Qle_bool_iff | reflexivity].
  - right. split; [| reflexivity].
    apply Qnot_le_lt. intro H. apply Qle_bool_iff in H. congruence.
Qed.

(** Case analysis on every [min], [max] and [<] test of the goal. *)
Ltac split_tests :=
  repeat match goal with
    | |- context [min ?a ?b] =>
        let H := fresh "Hmin" in
        destruct (min_cases a b) as [[H ->] | [H ->]]
    | |- context [max ?a ?b] =>
        let H := fresh "Hmax" in
        destruct (max_cases a b) as [[H ->] | [H ->]]
    | |- context [ltb ?a ?b] =>
        let H := fresh "Hlt" in
        destruct (ltb_cases a b) as [[-> H] | [-> H]]
    end.

Lemma clamp_bounds (v lo hi : Q) :
  lo <= hi -> lo <= clamp v lo hi /\ clamp v lo hi <= hi.
Proof. intro H. unfold clamp. split_tests; lra. Qed.

Lemma clamp_below (v lo hi : Q) :
  lo <= hi -> v <= lo -> clamp v lo hi == lo.
Proof. intros H Hv. unfold clamp. split_tests; lra. Qed.

Lemma clamp_above (v lo hi : Q) :
  lo <= hi -> hi <= v -> clamp v lo hi == hi.
Proof. intros H Hv. unfold clamp. split_tests; lra. Qed.

Lemma clamp_inside (v lo hi : Q) :
  lo <= v -> v <= hi -> clamp v lo hi == v.
Proof. intros H Hv. unfold clamp. split_tests; lra. Qed.

Lemma clamp_mono (v w lo hi : Q) :
  lo <= hi -> v <= w -> clamp v lo hi <= clamp w lo hi.
Proof.
  intros H Hvw. unfold clamp.
  destruct (min_cases hi v) as [[? ->] | [? ->]];
    destruct (min_cases hi w) as [[? ->] | [? ->]];
    split_tests; lra.
Qed.

Lemma pow3_cube (x : Q) : pow3 x == x * x * x.
Proof. unfold pow3. simpl. ring. Qed.

End NumFacts.

(** ** The easing curve and the interpolation *)

Module EaseFacts.

Import Num NumFacts AnimatedPart.

Lemma cube_mono (a b : Q) : 0 <= a -> a <= b -> a * a * a <= b * b * b.
Proof.
  intros Ha Hab.
  assert (H1 : a * a <= b * b)
    by (apply Qmult_le_compat_nonneg; split; assumption).
  apply Qmult_le_compat_nonneg; split;
    [apply Qmult_le_0_compat | | |]; assumption.
Qed.

Lemma cube_nonneg (a : Q) : 0 <= a -> 0 <= a * a * a.
Proof.
  intro Ha. repeat apply Qmult_le_0_compat; exact Ha.
Qed.

Lemma ease_lt (p : Q) : p < 1#2 -> ease p == 4 * p * p * p.
Proof.
  intro H. unfold ease. apply ltb_lt in H. rewrite H. reflexivity.
Qed.

Lemma ease_ge (p : Q) :
  1#2 <= p ->
  ease p == 1 - (1#2) * ((2 - 2 * p) * (2 - 2 * p) * (2 - 2 * p)).
Proof.
  intro H. unfold ease. apply ltb_ge in H. rewrite H.
  rewrite pow3_cube. field.
Qed.

Lemma ease_0 : ease 0 == 0.
Proof. reflexivity. Qed.

Lemma ease_1 : ease 1 == 1.
Proof. reflexivity. Qed.

Lemma ease_mono (p q : Q) : 0 <= p -> p <= q -> q <= 1 -> ease p <= ease q.
Proof.
  intros Hp Hpq Hq.
  destruct (Qlt_le_dec p (1#2)) as [Lp | Lp];
    destruct (Qlt_le_dec q (1#2)) as [Lq | Lq].
  - rewrite (ease_lt p Lp), (ease_lt q Lq).
    pose proof (cube_mono p q Hp Hpq). lra.
  - rewrite (ease_lt p Lp), (ease_ge q Lq).
    pose proof (cube_mono p (1#2) Hp (Qlt_le_weak _ _ Lp)) as H1.
    assert (H2 : (2 - 2 * q) * (2 - 2 * q) * (2 - 2 * q) <= 1 * 1 * 1)
      by (apply cube_mono; lra).
    lra.
  - lra.
  - rewrite (ease_ge p Lp), (ease_ge q Lq).
    assert (H : (2 - 2 * q) * (2 - 2 * q) * (2 - 2 * q)
                <= (2 - 2 * p) * (2 - 2 * p) * (2 - 2 * p))
      by (apply cube_mono; lra).
    lra.
Qed.

Lemma ease_bounds (p : Q) : 0 <= p -> p <= 1 -> 0 <= ease p /\ ease p <= 1.
Proof.
  intros H0 H1. split.
  - rewrite <- ease_0. apply ease_mono; lra.
  - rewrite <- ease_1. apply ease_mono; lra.
Qed.

#[export] Instance ease_Proper : Proper (Qeq ==> Qeq) ease.
Proof.
  intros x y E.
  destruct (Qlt_le_dec x (1#2)) as [L | L].
  - rewrite (ease_lt x L), (ease_lt y) by (rewrite <- E; exact L).
    rewrite E. reflexivity.
  - rewrite (ease_ge x L), (ease_ge y) by (rewrite <- E; exact L).
    rewrite E. reflexivity.
Qed.

Lemma localP_bounds (config : PartConfig) (g : Q) :
  0 <= localP config g /\ localP config g <= 1.
Proof. unfold localP. apply clamp_bounds. lra. Qed.

Lemma localRaw_mono (config : PartConfig) (g1 g2 : Q) :
  0 < duration config -> g1 <= g2 ->
  localRaw config g1 <= localRaw config g2.
Proof.
  intros Hd Hg. unfold localRaw.
  apply Qmult_le_compat_r.
  - lra.
  - apply Qlt_le_weak, Qinv_lt_0_compat, Hd.
Qed.

Lemma localP_mono (config : PartConfig) (g1 g2 : Q) :
  0 < duration config -> g1 <= g2 ->
  localP config g1 <= localP config g2.
Proof.
  intros Hd Hg. unfold localP.
  apply clamp_mono; [lra | now apply localRaw_mono].
Qed.

(** The eased parameter of a part at a given global progress. *)
Lemma eased_mono (config : PartConfig) (g1 g2 : Q) :
  0 < duration config -> g1 <= g2 ->
  ease (localP config g1) <= ease (localP config g2).
Proof.
  intros Hd Hg.
  destruct (localP_bounds config g1), (localP_bounds config g2).
  apply ease_mono; try assumption. now apply localP_mono.
Qed.

Lemma lerp_0 (a b t : Q) : t == 0 -> lerp a b t == a.
Proof. intro E. unfold lerp. rewrite E. ring. Qed.

Lemma lerp_1 (a b t : Q) : t == 1 -> lerp a b t == b.
Proof. intro E. unfold lerp. rewrite E. ring. Qed.

End EaseFacts.

(** ** The per-part interpolation *)

Module InterpolationFacts.

Import Num NumFacts AnimatedPart EaseFacts.

Lemma veq_coord (a b : Vec3) :
  veq a b <-> forall ax, coord ax a == coord ax b.
Proof.
  unfold veq. split.
  - intros (Hx & Hy & Hz) [| |]; assumption.
  - intro H. exact (conj (H X) (conj (H Y) (H Z))).
Qed.

Lemma coord_position (config : PartConfig) (g : Q) (ax : Axis) :
  coord ax (position config g)
  = lerp (coord ax (explodedPos config)) (coord ax (assembledPos config))
         (ease (localP config g)).
Proof. destruct ax; reflexivity. Qed.

(** Before its window opens a part is pinned at the exploded end. *)
Lemma eased_before (config : PartConfig) (g : Q) :
  0 < duration config -> g <= delay config ->
  ease (localP config g) == 0.
Proof.
  intros Hd Hg.
  assert (E : localP config g == 0).
  { unfold localP. apply clamp_below; [lra |].
    unfold localRaw. apply Qle_shift_div_r; [exact Hd | lra]. }
  rewrite E. reflexivity.
Qed.

(** After its window has closed a part is pinned at the assembled end. *)
Lemma eased_after (config : PartConfig) (g : Q) :
  0 < duration config -> delay config + duration config <= g ->
  ease (localP config g) == 1.
Proof.
  intros Hd Hg.
  assert (E : localP config g == 1).
  { unfold localP. apply clamp_above; [lra |].
    unfold localRaw. apply Qle_shift_div_l; [exact Hd | lra]. }
  rewrite E. reflexivity.
Qed.

(** A part whose window has closed by the end of the timeline sits at
    its assembled position at progress 1. *)
Lemma position_at_end (config : PartConfig) (ax : Axis) :
  0 < duration config -> delay config + duration config <= 1 ->
  coord ax (position config 1) == coord ax (assembledPos config).
Proof.
  intros Hd Hw. rewrite coord_position.
  apply lerp_1, eased_after; assumption.
Qed.

(** Inside its window the local parameter is the raw quotient. *)
Lemma localP_inside (config : PartConfig) (g : Q) :
  0 < duration config ->
  delay config <= g -> g <= delay config + duration config ->
  localP config g == (g - delay config) / duration config.
Proof.
  intros Hd H1 H2. unfold localP, localRaw.
  apply clamp_inside.
  - apply Qle_shift_div_l; [exact Hd | lra].
  - apply Qle_shift_div_r; [exact Hd | lra].
Qed.

Lemma lerp_between (e a t : Q) :
  0 <= t -> t <= 1 -> between (lerp e a t) e a.
Proof.
  intros H0 H1. unfold between, lerp.
  destruct (Qlt_le_dec a e) as [L | L].
  - right. split; nra.
  - left. split; nra.
Qed.

Lemma lerp_towards (e a t1 t2 : Q) :
  t1 <= t2 -> t2 <= 1 -> between (lerp e a t2) (lerp e a t1) a.
Proof.
  intros H12 H1. unfold between, lerp.
  destruct (Qlt_le_dec a e) as [L | L].
  - right. split; nra.
  - left. split; nra.
Qed.

End InterpolationFacts.

Module InterpolationSpec.

Import Num NumFacts AnimatedPart EaseFacts InterpolationFacts.

(** C1, as stated, fails: the glass pane of the generated layout has a
    positive duration and a window with [delay + duration >= 1], and
    yet at [globalP = 1] its position is not its assembled position. *)
Lemma endpoint_reached_counterexample :
  exists glass,
    WindowScene.find "glass" WindowScene.parts = Some glass /\
    0 < duration glass /\
    1 <= delay glass + duration glass /\
    ~ veq (position glass 1) (assembledPos glass).
Proof.
  eexists. split; [reflexivity |].
  split; [reflexivity |].
  split; [vm_compute; discriminate |].
  intros (_ & _ & Hz). vm_compute in Hz. discriminate.
Qed.

(** C1 (amended): for every part with a positive duration, the
    position at [globalP = 0] is the exploded position whenever
    [delay == 0]; at [globalP = 1], whenever [delay + duration <= 1],
    the local and the eased parameter are 1, so that each coordinate is
    [exploded + (assembled - exploded) * 1].  In binary64 that is the
    assembled coordinate up to rounding only: for the top cladding of
    the layout (delay 0.6, duration 0.4) both parameters are 1 and the
    position is within [tol] of the assembled one on every axis, and
    its y coordinate is not the assembled y. *)
Theorem position_endpoints (config : PartConfig) :
  0 < duration config ->
  (delay config == 0 ->
   veq (position config 0) (explodedPos config)) /\
  (delay config + duration config <= 1 ->
   localP config 1 == 1 /\
   ease (localP config 1) == 1 /\
   forall ax,
     coord ax (position config 1)
     == coord ax (explodedPos config)
        + (coord ax (assembledPos config)
           - coord ax (explodedPos config)) * 1) /\
  (let clad := F64.get "clad-top" in
   F64.localP clad 1 = 1%float /\
   F64.ease (F64.localP clad 1) = 1%float /\
   (forall ax,
      F64.near F64.tol (F64.coord ax (F64.position clad 1))
               (F64.coord ax (F64.assembledPos clad))) /\
   ~ F64.same (F64.vy (F64.position clad 1))
              (F64.vy (F64.assembledPos clad))).
Proof.
  intro Hd. split; [| split].
  - intro Hw. apply veq_coord. intro ax. rewrite coord_position.
    apply lerp_0, eased_before; [exact Hd | lra].
  - intro Hw.
    assert (E : localP config 1 == 1).
    { unfold localP. apply NumFacts.clamp_above; [lra |].
      unfold localRaw. apply Qle_shift_div_l; [exact Hd | lra]. }
    assert (E' : ease (localP config 1) == 1)
      by (rewrite E; reflexivity).
    split; [exact E |]. split; [exact E' |].
    intro ax. rewrite coord_position. unfold lerp. rewrite E'.
    reflexivity.
  - cbv zeta. split; [vm_compute; reflexivity |].
    split; [vm_compute; reflexivity |].
    split; [intros [| |]; vm_compute; reflexivity |].
    vm_compute. discriminate.
Qed.

Lemma position_endpoints_witness :
  let slab :=
    mkPart "slab" "Slab" box "#000000" (1, 1, 1) (4, 5, 6) (1, 2, 3)
           None 0 (1#2) None None None in
  (0 < duration slab /\ delay slab == 0 /\
   veq (position slab 0) (explodedPos slab)) /\
  (delay slab + duration slab <= 1 /\
   ease (localP slab 1) == 1 /\
   coord Z (position slab 1) == 3 + (6 - 3) * 1).
Proof.
  intro slab.
  destruct (position_endpoints slab) as (H0 & H1 & _);
    [reflexivity |].
  split.
  - split; [reflexivity |]. split; [reflexivity |].
    apply H0. reflexivity.
  - assert (Hw : delay slab + duration slab <= 1)
      by (vm_compute; discriminate).
    split; [exact Hw |].
    destruct (H1 Hw) as (_ & He & Hc).
    split; [exact He | exact (Hc Z)].
Defined.

(** C6, as stated, fails: the top insulation panel moves along z from
    2.5 down to 0.4, and at [globalP = 0.8] the code puts it at
    z = 0.39999999999999991, below the assembled z and so outside the
    closed interval spanned by the two. *)
Lemma overshoot_counterexample :
  let pane := F64.get "yellow-top" in
  PrimFloat.ltb (F64.vz (F64.assembledPos pane))
                (F64.vz (F64.explodedPos pane)) = true /\
  PrimFloat.ltb (F64.vz (F64.position pane 0.8%float))
                (F64.vz (F64.assembledPos pane)) = true.
Proof. cbv zeta. split; vm_compute; reflexivity. Qed.

(** C6 (amended): for a part with a positive duration and [g1 <= g2]
    in [0,1], the eased parameter lies in [0,1] and does not decrease
    from [g1] to [g2], and on every axis the coordinate moves
    monotonically from the exploded towards the assembled value (it
    does not decrease when [exploded <= assembled], and does not
    increase when [assembled <= exploded]).  The position is
    [exploded + (assembled - exploded) * t]; in binary64 it can pass
    the assembled end by rounding: the top insulation panel at 0.8 is
    below its assembled z, within [tol] of it. *)
Theorem position_monotone (config : PartConfig) (g1 g2 : Q) (ax : Axis) :
  0 < duration config ->
  0 <= g1 -> g1 <= g2 -> g2 <= 1 ->
  (0 <= ease (localP config g1) /\
   ease (localP config g1) <= ease (localP config g2) /\
   ease (localP config g2) <= 1) /\
  (coord ax (explodedPos config) <= coord ax (assembledPos config) ->
   coord ax (position config g1) <= coord ax (position config g2)) /\
  (coord ax (assembledPos config) <= coord ax (explodedPos config) ->
   coord ax (position config g2) <= coord ax (position config g1)) /\
  (let pane := F64.get "yellow-top" in
   F64.near F64.tol (F64.vz (F64.position pane 0.8%float))
            (F64.vz (F64.assembledPos pane))).
Proof.
  intros Hd H0 H12 H1.
  destruct (ease_bounds _ (proj1 (localP_bounds config g1))
              (proj2 (localP_bounds config g1))) as [L1 U1].
  destruct (ease_bounds _ (proj1 (localP_bounds config g2))
              (proj2 (localP_bounds config g2))) as [L2 U2].
  pose proof (eased_mono config g1 g2 Hd H12) as Hm.
  split; [repeat split; assumption |].
  rewrite !coord_position. unfold lerp.
  split; [| split].
  - intro Hdir. nra.
  - intro Hdir. nra.
  - vm_compute. reflexivity.
Qed.

Lemma position_monotone_witness :
  exists pane,
    WindowScene.find "yellow-top" WindowScene.parts = Some pane /\
    ease (localP pane (2#5)) <= ease (localP pane (3#5)) /\
    coord Z (assembledPos pane) <= coord Z (explodedPos pane) /\
    coord Z (position pane (3#5)) <= coord Z (position pane (2#5)).
Proof.
  eexists. split; [vm_compute; reflexivity |].
  match goal with
  | |- ease (localP ?P _) <= _ /\ _ =>
      destruct (position_monotone P (2#5) (3#5) Z)
        as ((_ & Hm & _) & _ & Hdown & _)
  end.
  - reflexivity.
  - unfold Qle; simpl; lia.
  - unfold Qle; simpl; lia.
  - unfold Qle; simpl; lia.
  - split; [exact Hm |].
    match goal with
    | |- ?A <= ?B /\ _ =>
        assert (Hdir : A <= B) by (vm_compute; discriminate)
    end.
    split; [exact Hdir | exact (Hdown Hdir)].
Defined.






End InterpolationSpec.

(** ** The generated layout *)

Module LayoutSpec.

Import WindowScene InterpolationFacts.

(** The refinement pass finds every entry it overwrites. *)
Lemma build_succeeds :
  build 2.8 1.9 0.8 0.14 5.0 2.5 = Some parts.
Proof. reflexivity. Qed.

Lemma parts_length : List.length parts = 19%nat.
Proof. reflexivity. Qed.

(** The ids of the layout are pairwise distinct, so [find] by id
    names one entry. *)
Lemma parts_ids_distinct : NoDup (map id parts).
Proof.
  repeat constructor; vm_compute; intuition discriminate.
Qed.

(** The positions at progress 1 of the parts found are their assembled
    positions; what is left is an identity in the dimensions. *)
Ltac at_end_dims :=
  unfold fitsBetween, lo, hi;
  rewrite !position_at_end
    by (first [reflexivity | (vm_compute; discriminate)]);
  cbv -[Qplus Qminus Qmult Qdiv Qopp Qinv Qeq];
  repeat split; field.

Ltac fits_entry :=
  do 3 eexists;
  split; [reflexivity |];
  split; [reflexivity |];
  split; [reflexivity |];
  at_end_dims.

(** Over the rationals the fit holds by construction: for every
    choice of the dimensions the refinement pass succeeds and each
    insulation panel spans exactly the distance between the inner
    faces of its two beams. *)
Lemma fits_by_construction
      (BoxW BoxH Depth BeamSize ExplodeZ ExplodeXY : Q) :
  exists list,
    build BoxW BoxH Depth BeamSize ExplodeZ ExplodeXY = Some list /\
    Forall (fits list 1) infill.
Proof.
  eexists. split; [reflexivity |].
  repeat constructor; fits_entry.
Qed.




End LayoutSpec.

(** ** The timeline: handlers and animation loop *)

Module AppFacts.

Import Num NumFacts App.

(** The increment of a frame delivered [e] seconds after the previous
    one is [e * speed / 3]. *)
Lemma increment_eq (t0 e sp : Q) :
  ((t0 + 1000 * e - t0) / 1000 * sp) / 3 == (1#3) * (e * sp).
Proof. field. Qed.

Lemma tick_speed (e : Q) (s : State) : speed (tick e s) = speed s.
Proof.
  unfold tick, animate.
  destruct (lastTimeRef s); [destruct (ltb (progressRef s) 1) |];
    reflexivity.
Qed.

(** Without a previous timestamp the frame only records its time. *)
Lemma tick_idle (e : Q) (s : State) :
  lastTimeRef s = None ->
  progressRef (tick e s) = progressRef s /\
  isPlaying (tick e s) = isPlaying s /\
  running (tick e s).
Proof.
  intro H. unfold tick, animate, running. rewrite H. simpl.
  repeat split. discriminate.
Qed.

(** A frame below completion advances progress and asks for the next
    frame; the play flag is left as it is. *)
Lemma tick_advance (e t0 : Q) (s : State) :
  lastTimeRef s = Some t0 -> progressRef s < 1 ->
  let target := progressRef s + (1#3) * (e * speed s) in
  (target <= 1 -> progressRef (tick e s) == target) /\
  (1 <= target -> progressRef (tick e s) == 1) /\
  isPlaying (tick e s) = isPlaying s /\
  frameRequested (tick e s) = true /\
  lastTimeRef (tick e s) = Some (t0 + 1000 * e).
Proof.
  intros H Hp target. unfold tick, animate. rewrite H.
  apply ltb_lt in Hp. rewrite Hp. cbn [progressRef isPlaying
    frameRequested lastTimeRef].
  pose proof (increment_eq t0 e (speed s)) as Hi.
  repeat split; intro Ht; subst target; split_tests;
    rewrite ?Hi in *; lra.
Qed.

(** A frame at or beyond completion stops the loop. *)
Lemma tick_complete (e t0 : Q) (s : State) :
  lastTimeRef s = Some t0 -> 1 <= progressRef s ->
  tick e s = mkState false 100 (speed s) 1 false (Some t0).
Proof.
  intros H Hp. unfold tick, animate. rewrite H.
  apply ltb_ge in Hp. rewrite Hp. reflexivity.
Qed.

(** One frame with a non-negative increment: progress does not
    decrease and stays at most 1. *)
Lemma tick_step (e : Q) (s : State) :
  0 <= speed s -> 0 <= e -> progressRef s <= 1 ->
  progressRef s <= progressRef (tick e s) /\
  progressRef (tick e s) <= 1.
Proof.
  intros Hs He Hp.
  destruct (lastTimeRef s) as [t0 |] eqn:Hl.
  - destruct (Qlt_le_dec (progressRef s) 1) as [L | L].
    + destruct (tick_advance e t0 s Hl L) as (Ha & Hb & _).
      assert (Hinc : 0 <= e * speed s)
        by (apply Qmult_le_0_compat; assumption).
      destruct (Qlt_le_dec 1 (progressRef s + (1#3) * (e * speed s)))
        as [G | G].
      * rewrite Hb by lra. lra.
      * rewrite Ha by lra. lra.
    + rewrite (tick_complete e t0 s Hl L). simpl. lra.
  - destruct (tick_idle e s Hl) as (-> & _). lra.
Qed.

Lemma trace_monotone (elapsed : list Q) :
  forall s,
    0 <= speed s -> progressRef s <= 1 ->
    Forall (fun e => 0 <= e) elapsed ->
    nondecreasing (progressRef s) (trace elapsed s) /\
    Forall (fun p => p <= 1) (trace elapsed s).
Proof.
  induction elapsed as [| e rest IH]; intros s Hs Hp Hall; simpl.
  - split; constructor.
  - inversion Hall as [| ? ? He Hrest]; subst.
    destruct (tick_step e s Hs He Hp) as [Hle Hub].
    destruct (IH (tick e s)) as [IH1 IH2];
      [rewrite tick_speed; exact Hs | exact Hub | exact Hrest |].
    repeat split; try assumption. constructor; assumption.
Qed.

(** Once the loop has stopped at completion, further frames leave the
    state as it is. *)
Lemma ticks_completed (elapsed : list Q) (sp t0 : Q) :
  let done := mkState false 100 sp 1 false (Some t0) in
  ticks elapsed done = done /\
  Forall (fun p => p = 1) (trace elapsed done).
Proof.
  intro done. induction elapsed as [| e rest [IH1 IH2]]; simpl.
  - split; [reflexivity | constructor].
  - assert (E : tick e done = done) by reflexivity.
    unfold ticks in *. simpl. rewrite E.
    split; [exact IH1 | constructor; [reflexivity | exact IH2]].
Qed.

End AppFacts.

Module TimelineSpec.

Import Num NumFacts App AppFacts.

(** The frame on which progress reaches 1 takes the advancing branch:
    it leaves the play flag as it is and asks for one more frame; the
    loop stops on the frame after (see [tick_complete]). *)
Lemma tick_reaching_end (e t0 : Q) (s : State) :
  lastTimeRef s = Some t0 -> progressRef s < 1 ->
  1 <= progressRef s + (1#3) * (e * speed s) ->
  progressRef (tick e s) == 1 /\
  isPlaying (tick e s) = isPlaying s /\
  frameRequested (tick e s) = true.
Proof.
  intros Hl Hp Ht.
  destruct (tick_advance e t0 s Hl Hp) as (_ & Hb & Hc & Hd & _).
  auto.
Qed.

(** C2, as stated, fails: the controller does not pause once progress
    equals 1.  From the started state at speed 1, a frame after 1.5 s
    and one after 2 s more bring progress to exactly 1, and the
    controller is still playing, with a further frame requested. *)
Lemma pause_at_end_counterexample :
  let s := ticks [1.5; 2] (started 0 (setSpeed 1 init)) in
  progressRef s == 1 /\ isPlaying s = true /\ frameRequested s = true.
Proof. cbv zeta. repeat split; vm_compute; reflexivity. Qed.

(** C2 (amended): from a progress in [0,1], frames with non-negative
    elapsed times give a non-decreasing sequence of progress values,
    each at most 1.  A frame that starts below 1 while the loop runs,
    the frame on which progress becomes 1 included, leaves
    [isPlaying] as it is and asks for another frame.  A frame that
    starts at progress 1 while the loop runs sets [isPlaying] to
    false, asks for no further frame and leaves progress at 1, as do
    all frames after it. *)
Theorem ticks_monotone_until_complete (elapsed : list Q) (s : State) :
  0 <= speed s -> inUnit (progressRef s) ->
  Forall (fun e => 0 <= e) elapsed ->
  nondecreasing (progressRef s) (trace elapsed s) /\
  Forall (fun p => p <= 1) (trace elapsed s) /\
  (running s -> progressRef s < 1 ->
   forall e,
     isPlaying (tick e s) = isPlaying s /\
     frameRequested (tick e s) = true /\
     progressRef (tick e s) <= 1) /\
  (running s -> progressRef s == 1 ->
   forall e,
     isPlaying (tick e s) = false /\
     frameRequested (tick e s) = false /\
     progressRef (tick e s) = 1 /\
     forall more,
       isPlaying (ticks more (tick e s)) = false /\
       Forall (fun p => p = 1) (trace more (tick e s))).
Proof.
  intros Hs [Hp0 Hp1] Hall.
  destruct (trace_monotone elapsed s Hs Hp1 Hall) as [Hm Hb].
  split; [exact Hm |]. split; [exact Hb |].
  split.
  - intros Hrun Hlt e.
    destruct (lastTimeRef s) as [t0 |] eqn:Hl;
      [| exfalso; apply Hrun; exact Hl].
    destruct (tick_advance e t0 s Hl Hlt) as (Ha & Hb' & Hc & Hd & _).
    split; [exact Hc |]. split; [exact Hd |].
    destruct (Qlt_le_dec 1 (progressRef s + (1#3) * (e * speed s)))
      as [L | L].
    + rewrite (Hb' (Qlt_le_weak _ _ L)). apply Qle_refl.
    + rewrite (Ha L). exact L.
  - intros Hrun Hone e.
    destruct (lastTimeRef s) as [t0 |] eqn:Hl;
      [| exfalso; apply Hrun; exact Hl].
    assert (Hge : 1 <= progressRef s) by lra.
    rewrite (tick_complete e t0 s Hl Hge).
    repeat split; destruct (ticks_completed more (speed s) t0) as [E F].
    + cbv zeta in E. rewrite E. reflexivity.
    + exact F.
Qed.

Lemma ticks_monotone_until_complete_witness :
  let s := started 0 (setSpeed 1 init) in
  let s1 := tick 1.5 s in
  let s' := ticks [1.5; 2] s in
  (nondecreasing (progressRef s) (trace [1.5; 0; 2; 0.5] s) /\
   Forall (fun p => p <= 1) (trace [1.5; 0; 2; 0.5] s)) /\
  (running s1 /\ progressRef s1 < 1 /\
   progressRef (tick 2 s1) == 1 /\
   isPlaying (tick 2 s1) = isPlaying s1 /\
   frameRequested (tick 2 s1) = true) /\
  (running s' /\ progressRef s' == 1 /\ isPlaying s' = true /\
   isPlaying (tick 0.5 s') = false /\
   progressRef (tick 0.5 s') = 1).
Proof.
  intros s s1 s'. split; [| split].
  - destruct (ticks_monotone_until_complete [1.5; 0; 2; 0.5] s)
      as (Hm & Hb & _).
    + vm_compute; discriminate.
    + split; vm_compute; discriminate.
    + repeat constructor; vm_compute; discriminate.
    + split; assumption.
  - assert (Hrun : running s1) by (vm_compute; discriminate).
    assert (Hlt : progressRef s1 < 1) by (vm_compute; reflexivity).
    destruct (ticks_monotone_until_complete [] s1) as (_ & _ & Hc & _).
    + vm_compute; discriminate.
    + split; vm_compute; discriminate.
    + constructor.
    + destruct (Hc Hrun Hlt 2) as (Hp & Hq & _).
      split; [exact Hrun |]. split; [exact Hlt |].
      split; [vm_compute; reflexivity |]. split; assumption.
  - assert (Hrun : running s') by (vm_compute; discriminate).
    assert (Hone : progressRef s' == 1) by (vm_compute; reflexivity).
    destruct (ticks_monotone_until_complete [] s') as (_ & _ & _ & Hc).
    + vm_compute; discriminate.
    + split; vm_compute; discriminate.
    + constructor.
    + destruct (Hc Hrun Hone 0.5) as (Hp & _ & Hq & _).
      split; [exact Hrun |]. split; [exact Hone |].
      split; [reflexivity |]. split; assumption.
Defined.

(** C3, as stated, fails: [handleSeek] writes its argument divided by
    100 without a clamp, so a seek to 150 leaves progress at 3/2, which
    is neither the clamped value 1 nor within [0,1]. *)
Lemma seek_out_of_range_counterexample :
  progressRef (handleSeek 150 init) == 3#2 /\
  Num.clamp (150 / 100) 0 1 == 1 /\
  ~ progressRef (handleSeek 150 init) == Num.clamp (150 / 100) 0 1 /\
  ~ inUnit (progressRef (step (Seek 150) init)).
Proof.
  split; [reflexivity |].
  split; [reflexivity |].
  split; [vm_compute; discriminate |].
  intros [_ H]. vm_compute in H. apply H. reflexivity.
Qed.

Lemma step_in_unit (o : Op) (s : State) :
  0 <= speed s -> inUnit (progressRef s) -> inRange o ->
  inUnit (progressRef (step o s)) /\ speed (step o s) = speed s.
Proof.
  intros Hs [H0 H1] Ho. destruct o as [e | v | |]; simpl in *.
  - split; [| apply tick_speed].
    destruct (tick_step e s Hs Ho H1). split; lra.
  - split; [| reflexivity]. destruct Ho as [Hv0 Hv1]. split.
    + apply Qle_shift_div_l; lra.
    + apply Qle_shift_div_r; lra.
  - split; [| reflexivity]. split; lra.
  - unfold handlePlayPause.
    destruct (negb (isPlaying s) && geb (progressRef s) 1);
      simpl; repeat split; lra.
Qed.

(** C3 (amended): from a progress in [0,1] and a non-negative speed,
    progress stays in [0,1] after every operation whose input is in
    range (a frame with non-negative elapsed time, a seek within the
    slider's 0..100, reset, play/pause); and a seek with any argument
    [v] writes exactly [v / 100], without a clamp. *)
Theorem progress_in_unit (ops : list Op) (s : State) :
  0 <= speed s -> inUnit (progressRef s) -> Forall inRange ops ->
  inUnit (progressRef (steps ops s)) /\
  forall v, progressRef (handleSeek v (steps ops s)) = v / 100.
Proof.
  intros Hs Hp Hall. split; [| reflexivity].
  revert s Hs Hp. induction Hall as [| o rest Ho _ IH]; intros s Hs Hp.
  - exact Hp.
  - destruct (step_in_unit o s Hs Hp Ho) as [Hu Hsp].
    unfold steps in *. simpl. apply IH; [rewrite Hsp |]; assumption.
Qed.

Lemma progress_in_unit_witness :
  inUnit (progressRef
            (steps [PlayPause; Tick 1.5; Seek 40; Reset; Seek 100;
                    PlayPause; Tick 0.2]
                   (effect 0 init))).
Proof.
  apply progress_in_unit.
  - vm_compute; discriminate.
  - split; vm_compute; discriminate.
  - repeat constructor; vm_compute; discriminate.
Defined.

(** C8, as stated, fails: the loop started in the initial state (speed
    0.8, progress 0) and given a frame stamped 15 ms before the
    recorded timestamp moves progress down to -1/250. *)
Lemma negative_elapsed_counterexample :
  let s := started 0 init in
  running s /\ progressRef s == 0 /\
  progressRef (tick (-0.015) s) == -(1#250) /\
  progressRef (tick (-0.015) s) < progressRef s.
Proof.
  intro s. split; [vm_compute; discriminate |].
  repeat split; vm_compute; reflexivity.
Qed.

(** C8 (amended): a negative elapsed time is neither clamped nor
    rejected: while the loop runs below completion with a positive
    speed, a frame with negative elapsed time [e] sets progress to
    [progress + e * speed / 3], which is strictly less than before. *)
Theorem negative_elapsed_decreases (e : Q) (s : State) :
  running s -> progressRef s < 1 -> 0 < speed s -> e < 0 ->
  progressRef (tick e s) == progressRef s + e * speed s / 3 /\
  progressRef (tick e s) < progressRef s.
Proof.
  intros Hrun Hp Hs He.
  destruct (lastTimeRef s) as [t0 |] eqn:Hl;
    [| exfalso; apply Hrun; exact Hl].
  destruct (tick_advance e t0 s Hl Hp) as (Ha & _).
  assert (Hneg : e * speed s < 0).
  { setoid_replace (e * speed s) with (- ((- e) * speed s)) by ring.
    assert (0 < (- e) * speed s)
      by (apply Qmult_lt_0_compat; lra).
    lra. }
  assert (E : e * speed s / 3 == (1#3) * (e * speed s)) by field.
  rewrite E, Ha by lra. split; [reflexivity | lra].
Qed.

Lemma negative_elapsed_decreases_witness :
  let s := started 0 init in
  progressRef (tick (-0.015) s)
  == progressRef s + (-0.015) * speed s / 3 /\
  progressRef (tick (-0.015) s) < progressRef s.
Proof.
  intro s. apply negative_elapsed_decreases.
  - vm_compute; discriminate.
  - vm_compute; reflexivity.
  - vm_compute; reflexivity.
  - vm_compute; reflexivity.
Defined.

(** C9: [handlePlayPause] invoked while not playing with progress at
    or beyond 1 sets progress to 0 and enters Playing; invoked with
    progress below 1 it toggles the play flag and leaves progress as
    it is. *)
Theorem playPause_rewinds (s : State) :
  (isPlaying s = false -> 1 <= progressRef s ->
   progressRef (handlePlayPause s) = 0 /\
   uiProgress (handlePlayPause s) = 0 /\
   isPlaying (handlePlayPause s) = true) /\
  (progressRef s < 1 ->
   progressRef (handlePlayPause s) = progressRef s /\
   uiProgress (handlePlayPause s) = uiProgress s /\
   isPlaying (handlePlayPause s) = negb (isPlaying s)).
Proof.
  unfold handlePlayPause. split.
  - intros Hplay Hp. apply geb_ge in Hp. rewrite Hplay, Hp.
    simpl. repeat split.
  - intro Hp. apply ltb_ge_false in Hp. rewrite Hp, andb_false_r.
    repeat split.
Qed.

Lemma playPause_rewinds_witness :
  let ended := handleSeek 100 init in
  let midway := handleSeek 40 init in
  (isPlaying ended = false /\ 1 <= progressRef ended /\
   progressRef (handlePlayPause ended) = 0 /\
   isPlaying (handlePlayPause ended) = true) /\
  (progressRef midway < 1 /\
   progressRef (handlePlayPause midway) = progressRef midway /\
   isPlaying (handlePlayPause midway) = negb (isPlaying midway)).
Proof.
  intros ended midway. split.
  - split; [reflexivity |]. split; [vm_compute; discriminate |].
    destruct (proj1 (playPause_rewinds ended)) as (H1 & _ & H2).
    + reflexivity.
    + vm_compute; discriminate.
    + split; assumption.
  - split; [vm_compute; reflexivity |].
    destruct (proj2 (playPause_rewinds midway)) as (H1 & _ & H2).
    + vm_compute; reflexivity.
    + split; assumption.
Defined.

End TimelineSpec.

(** ** End-to-end scenario *)

Module ScenarioSpec.

Import Num NumFacts AnimatedPart EaseFacts InterpolationFacts.
Import App AppFacts.

(** C5, as stated, fails: the eased parameter at local parameter 0.4
    is not 0.256.  The code computes [4 * 0.4 * 0.4 * 0.4] in
    binary64, which is 0.25600000000000006; so it is for the top
    insulation panel of the layout (delay 0.3, duration 0.5) at global
    progress 0.5. *)
Lemma eased_value_counterexample :
  let pane := F64.get "yellow-top" in
  F64.delay pane = 0.3%float /\ F64.duration pane = 0.5%float /\
  F64.localP pane 0.5 = 0.4%float /\
  F64.ease (F64.localP pane 0.5) = 0.25600000000000006%float /\
  PrimFloat.eqb (F64.ease (F64.localP pane 0.5)) 0.256 = false.
Proof. cbv zeta. repeat split; vm_compute; reflexivity. Qed.

(** C5 (amended): with speed 1 and the divisor 3 of the loop, a frame
    1.5 seconds after the previous one takes progress from 0 to 0.5;
    and a part with delay 0.3 and duration 0.5 at global progress 0.5
    has local parameter 0.4, eased parameter [4 * 0.4 * 0.4 * 0.4],
    and on every axis the position
    [exploded + (assembled - exploded) * (4 * 0.4 * 0.4 * 0.4)].  In
    binary64 the local parameter is 0.4, the eased parameter is
    0.25600000000000006 and the position is
    [exploded + (assembled - exploded) * 0.25600000000000006]. *)
Theorem end_to_end_scenario (s : State) (config : PartConfig) (ax : Axis) :
  running s -> speed s == 1 -> progressRef s == 0 ->
  delay config == 0.3 -> duration config == 0.5 ->
  progressRef (tick 1.5 s) == 0.5 /\
  localP config 0.5 == 0.4 /\
  ease (localP config 0.5) == 4 * 0.4 * 0.4 * 0.4 /\
  coord ax (position config 0.5)
  == coord ax (explodedPos config)
     + (coord ax (assembledPos config)
        - coord ax (explodedPos config)) * (4 * 0.4 * 0.4 * 0.4) /\
  (forall c : F64.PartConfig,
     F64.delay c = 0.3%float -> F64.duration c = 0.5%float ->
     F64.localP c 0.5 = 0.4%float /\
     F64.ease (F64.localP c 0.5) = 0.25600000000000006%float /\
     F64.coord ax (F64.position c 0.5)
     = PrimFloat.add
         (F64.coord ax (F64.explodedPos c))
         (PrimFloat.mul
            (PrimFloat.sub (F64.coord ax (F64.assembledPos c))
                           (F64.coord ax (F64.explodedPos c)))
            0.25600000000000006)).
Proof.
  intros Hrun Hs Hp Hdl Hdu.
  destruct (lastTimeRef s) as [t0 |] eqn:Hl;
    [| exfalso; apply Hrun; exact Hl].
  assert (Hlocal : localP config 0.5 == 0.4).
  { rewrite localP_inside by (rewrite ?Hdl, ?Hdu; lra).
    rewrite Hdl, Hdu. reflexivity. }
  assert (Heased : ease (localP config 0.5) == 4 * 0.4 * 0.4 * 0.4)
    by (rewrite Hlocal; reflexivity).
  split.
  { destruct (tick_advance 1.5 t0 s Hl) as (Ha & _); [lra |].
    rewrite Ha; rewrite Hs, Hp; [reflexivity | lra]. }
  split; [exact Hlocal |].
  split; [exact Heased |].
  split.
  { rewrite coord_position. unfold lerp. rewrite Heased. reflexivity. }
  intros c Hcd Hcu.
  assert (El : F64.localP c 0.5 = 0.4%float).
  { unfold F64.localP. rewrite Hcd, Hcu. vm_compute. reflexivity. }
  assert (Ee : F64.ease (F64.localP c 0.5) = 0.25600000000000006%float).
  { rewrite El. vm_compute. reflexivity. }
  split; [exact El |]. split; [exact Ee |].
  unfold F64.position. cbv zeta. rewrite Ee.
  destruct ax; reflexivity.
Qed.

Lemma end_to_end_scenario_witness :
  let s := started 0 (setSpeed 1 init) in
  exists pane,
    WindowScene.find "yellow-top" WindowScene.parts = Some pane /\
    progressRef (tick 1.5 s) == 0.5 /\
    localP pane 0.5 == 0.4 /\
    coord Z (position pane 0.5)
    == coord Z (explodedPos pane)
       + (coord Z (assembledPos pane)
          - coord Z (explodedPos pane)) * (4 * 0.4 * 0.4 * 0.4).
Proof.
  intro s. eexists. split; [vm_compute; reflexivity |].
  match goal with
  | |- _ /\ localP ?P _ == _ /\ _ => set (pane := P)
  end.
  destruct (end_to_end_scenario s pane Z) as (H1 & H2 & _ & H3 & _).
  - vm_compute; discriminate.
  - vm_compute; reflexivity.
  - vm_compute; reflexivity.
  - vm_compute; reflexivity.
  - vm_compute; reflexivity.
  - split; [exact H1 |]. split; [exact H2 | exact H3].
Defined.

End ScenarioSpec.

(** * Further properties of the code *)

(** ** The interpolation inside and outside a part's window *)

Module WindowFacts.

Import Num NumFacts AnimatedPart EaseFacts InterpolationFacts.

Lemma cube_strict (a b : Q) : 0 <= a -> a < b -> a * a * a < b * b * b.
Proof.
  intros Ha Hab.
  assert (Hb : 0 < b) by lra.
  assert (H1 : a * a <= a * b) by nra.
  assert (H2 : a * b < b * b) by nra.
  assert (H3 : a * a * a <= a * a * b) by nra.
  assert (H4 : a * a * b <= a * b * b) by nra.
  assert (H5 : a * b * b < b * b * b) by nra.
  lra.
Qed.

Lemma ease_strict_mono (p q : Q) :
  0 <= p -> p < q -> q <= 1 -> ease p < ease q.
Proof.
  intros Hp Hpq Hq.
  destruct (Qlt_le_dec p (1#2)) as [Lp | Lp];
    destruct (Qlt_le_dec q (1#2)) as [Lq | Lq].
  - rewrite (ease_lt p Lp), (ease_lt q Lq).
    pose proof (cube_strict p q Hp Hpq). lra.
  - rewrite (ease_lt p Lp), (ease_ge q Lq).
    assert (H1 : p * p * p < (1#2) * (1#2) * (1#2))
      by (apply cube_strict; assumption).
    assert (H2 : (2 - 2 * q) * (2 - 2 * q) * (2 - 2 * q) <= 1 * 1 * 1)
      by (apply cube_mono; lra).
    lra.
  - lra.
  - rewrite (ease_ge p Lp), (ease_ge q Lq).
    assert (H : (2 - 2 * q) * (2 - 2 * q) * (2 - 2 * q)
                < (2 - 2 * p) * (2 - 2 * p) * (2 - 2 * p))
      by (apply cube_strict; lra).
    lra.
Qed.

Lemma ease_one_only_at_one (t : Q) :
  0 <= t -> t <= 1 -> ease t == 1 -> t == 1.
Proof.
  intros H0 H1 E.
  destruct (Qlt_le_dec t 1) as [L | L]; [| lra].
  pose proof (ease_strict_mono t 1 H0 L (Qle_refl 1)) as H.
  rewrite ease_1 in H. lra.
Qed.

(** The local parameter is 1 only once the window has closed. *)
Lemma localP_one (config : PartConfig) (g : Q) :
  0 < duration config -> localP config g == 1 ->
  delay config + duration config <= g.
Proof.
  intros Hd E.
  destruct (Qlt_le_dec g (delay config + duration config)) as [L | L];
    [| exact L].
  exfalso.
  assert (Hraw : localRaw config g < 1).
  { unfold localRaw. apply Qlt_shift_div_r; [exact Hd | lra]. }
  unfold localP, clamp in E. revert E. split_tests; lra.
Qed.

Lemma lerp_hits_end (e a t : Q) : ~ e == a -> lerp e a t == a -> t == 1.
Proof.
  intros Hne E. unfold lerp in E.
  assert (H : (a - e) * (1 - t) == 0) by (ring_simplify; lra).
  apply Qmult_integral in H. destruct H as [H | H]; [| lra].
  exfalso. apply Hne. lra.
Qed.

Lemma differ_on_axis (a b : Vec3) :
  ~ veq a b -> exists ax, ~ coord ax a == coord ax b.
Proof.
  intro H.
  destruct (Qeq_dec (vx a) (vx b)) as [Ex | Nx]; [| exists X; exact Nx].
  destruct (Qeq_dec (vy a) (vy b)) as [Ey | Ny]; [| exists Y; exact Ny].
  destruct (Qeq_dec (vz a) (vz b)) as [Ez | Nz]; [| exists Z; exact Nz].
  exfalso. apply H. repeat split; assumption.
Qed.

Lemma assembled_only_after (config : PartConfig) (g : Q) :
  0 < duration config ->
  ~ veq (explodedPos config) (assembledPos config) ->
  veq (position config g) (assembledPos config) ->
  delay config + duration config <= g.
Proof.
  intros Hd Hne Hv.
  destruct (differ_on_axis _ _ Hne) as [ax Hax].
  destruct (localP_bounds config g) as [L0 L1].
  pose proof (proj1 (veq_coord _ _) Hv ax) as H.
  rewrite coord_position in H.
  apply lerp_hits_end in H; [| exact Hax].
  apply localP_one; [exact Hd |].
  apply ease_one_only_at_one; assumption.
Qed.

Lemma position_before (config : PartConfig) (g : Q) :
  0 < duration config -> g <= delay config ->
  veq (position config g) (explodedPos config).
Proof.
  intros Hd Hg. apply veq_coord. intro ax. rewrite coord_position.
  apply lerp_0, eased_before; assumption.
Qed.

(** Once the window has closed the local and the eased parameter are
    1, and each coordinate is the lerp expression at 1. *)
Lemma after_window (config : PartConfig) (g : Q) :
  0 < duration config -> delay config + duration config <= g ->
  localP config g == 1 /\
  ease (localP config g) == 1 /\
  forall ax,
    coord ax (position config g)
    == coord ax (explodedPos config)
       + (coord ax (assembledPos config)
          - coord ax (explodedPos config)) * 1.
Proof.
  intros Hd Hg.
  assert (E : localP config g == 1).
  { unfold localP. apply clamp_above; [lra |].
    unfold localRaw. apply Qle_shift_div_l; [exact Hd | lra]. }
  split; [exact E |].
  assert (E' : ease (localP config g) == 1)
    by (rewrite E; reflexivity).
  split; [exact E' |].
  intro ax. rewrite coord_position. unfold lerp. rewrite E'.
  reflexivity.
Qed.

End WindowFacts.

Module WindowSpec.

Import Num NumFacts AnimatedPart EaseFacts InterpolationFacts WindowFacts.

(** X1: outside its window a part is pinned: for a positive duration,
    at every progress up to the delay the local parameter is 0 and the
    part is at its exploded position, and at every progress from
    [delay + duration] on the local and the eased parameter are 1, so
    that each coordinate is [exploded + (assembled - exploded) * 1]. *)
Theorem pinned_outside_window (config : PartConfig) (g : Q) :
  0 < duration config ->
  (g <= delay config ->
   localP config g == 0 /\
   veq (position config g) (explodedPos config)) /\
  (delay config + duration config <= g ->
   localP config g == 1 /\
   ease (localP config g) == 1 /\
   forall ax,
     coord ax (position config g)
     == coord ax (explodedPos config)
        + (coord ax (assembledPos config)
           - coord ax (explodedPos config)) * 1).
Proof.
  intro Hd. split; intro Hg.
  - split; [| now apply position_before].
    unfold localP. apply clamp_below; [lra |].
    unfold localRaw. apply Qle_shift_div_r; [exact Hd | lra].
  - apply after_window; assumption.
Qed.

Lemma pinned_outside_window_witness :
  exists pane,
    WindowScene.find "yellow-top" WindowScene.parts = Some pane /\
    (localP pane (1#5) == 0 /\
     veq (position pane (1#5)) (explodedPos pane)) /\
    (localP pane (9#10) == 1 /\ ease (localP pane (9#10)) == 1).
Proof.
  eexists. split; [vm_compute; reflexivity |].
  split.
  - apply pinned_outside_window;
      [reflexivity | vm_compute; discriminate].
  - match goal with
    | |- localP ?P _ == 1 /\ _ =>
        destruct (proj2 (pinned_outside_window P (9#10) eq_refl))
          as (H1 & H2 & _)
    end.
    + vm_compute; discriminate.
    + split; assumption.
Defined.

End WindowSpec.

(** ** Looking up and overwriting parts by id *)

Module PatchSpec.

Import WindowScene.

(** X4: the overwrite [list.find(p => p.id === key)!.field = v] fails
    exactly when no part of the list has that id. *)
Theorem patch_fails_iff_missing
        (key : string) (f : PartConfig -> PartConfig) (l : PartList) :
  patch key f l = None <-> find key l = None.
Proof.
  unfold find. induction l as [| p rest IH]; simpl.
  - tauto.
  - destruct (String.eqb (id p) key).
    + split; discriminate.
    + destruct (patch key f rest).
      * split; [discriminate |]. intro H. apply IH in H. discriminate.
      * split; intros _; [apply IH |]; reflexivity.
Qed.

Lemma patch_fails_iff_missing_witness :
  find "yellow-mid" parts = None /\
  patch "yellow-mid" (set_args (1, 1, 1)) parts = None.
Proof.
  split; [reflexivity |].
  apply patch_fails_iff_missing. reflexivity.
Defined.

(** X5: an overwrite that keeps the id changes the first part with that
    id and nothing else: looking that id up afterwards gives the
    overwritten part, every other id looks up as before, and the list
    keeps its length and its ids in order. *)
Theorem patch_overwrites_first_match
        (key : string) (f : PartConfig -> PartConfig)
        (l : PartList) (p : PartConfig) :
  (forall q, id (f q) = id q) ->
  find key l = Some p ->
  exists l',
    patch key f l = Some l' /\
    find key l' = Some (f p) /\
    (forall k, k <> key -> find k l' = find k l) /\
    List.length l' = List.length l /\
    map id l' = map id l.
Proof.
  intros Hid. unfold find. revert p.
  induction l as [| q rest IH]; simpl; intros p Hf; [discriminate |].
  destruct (String.eqb (id q) key) eqn:E.
  - injection Hf as <-. eexists. split; [reflexivity |]. simpl.
    rewrite !Hid, E. repeat split.
    intros k Hk.
    apply String.eqb_eq in E. subst key.
    destruct (String.eqb (id q) k) eqn:E'; [| reflexivity].
    apply String.eqb_eq in E'. congruence.
  - destruct (IH p Hf) as (l' & Hp & Hf' & Ho & Hl & Hm).
    rewrite Hp. eexists. split; [reflexivity |]. simpl.
    rewrite E. split; [exact Hf' |].
    split; [intros k Hk; rewrite (Ho k Hk); reflexivity |].
    split; [f_equal; exact Hl | f_equal; exact Hm].
Qed.

Lemma patch_overwrites_first_match_witness :
  exists glass l',
    find "glass" parts = Some glass /\
    patch "glass" (set_args (1, 1, 1)) parts = Some l' /\
    find "glass" l' = Some (set_args (1, 1, 1) glass) /\
    List.length l' = List.length parts.
Proof.
  destruct (patch_overwrites_first_match
              "glass" (set_args (1, 1, 1)) parts
              (mkPart "glass" "Glass" box GLASS
                      (2.23000000, 1.33000000, 0.02)
                      (0, 0, 0.3) (0, 0, 4.50) None 0.55 0.5
                      (Some 0.3) (Some 0.9) (Some 0.05)))
    as (l' & Hp & Hf & _ & Hl & _).
  - reflexivity.
  - vm_compute; reflexivity.
  - eexists. exists l'. split; [vm_compute; reflexivity |].
    split; [exact Hp |]. split; [exact Hf | exact Hl].
Defined.

End PatchSpec.

(** ** The part list for every choice of the dimensions *)

Module SceneSpec.

Import WindowScene SceneChecks AnimatedPart EaseFacts.
Import InterpolationFacts WindowFacts.

(** A comparison of two numerals. *)
Ltac closed_num := lazy; first [reflexivity | discriminate].

(** One goal per part of the list. *)
Ltac each_part := repeat apply Forall_cons; [.. | apply Forall_nil].

(** Reduce to arithmetic in the dimensions. *)
Ltac dims := cbv -[Qplus Qminus Qmult Qdiv Qopp Qinv Qeq Qlt Qle].

(** Expose the arithmetic of a position, keeping the eased parameter
    as it is. *)
Ltac expose_position :=
  unfold veq, mirrorX, position, lerpVectors, lerp, localP, localRaw;
  cbv -[Qplus Qminus Qmult Qdiv Qopp Qinv Qeq ease Num.clamp].

(** X6: for every choice of the dimensions the refinement pass finds
    all its entries and the list has 19 parts with pairwise distinct
    ids (the React keys), each with a delay in [0,1) and a duration in
    (0,1], so the division by the duration is never by zero. *)
Theorem layout_well_formed
        (BoxW BoxH Depth BeamSize ExplodeZ ExplodeXY : Q) :
  exists list,
    build BoxW BoxH Depth BeamSize ExplodeZ ExplodeXY = Some list /\
    List.length list = 19%nat /\
    NoDup (map id list) /\
    Forall timed list.
Proof.
  eexists. split; [reflexivity |].
  split; [reflexivity |].
  split.
  - repeat apply NoDup_cons; [.. | apply NoDup_nil];
      lazy; intuition discriminate.
  - each_part; unfold timed; repeat split; closed_num.
Qed.

(** X7: at progress 0 (or below) every part of the layout is at its
    exploded position, whatever the dimensions. *)
Theorem exploded_before_start
        (BoxW BoxH Depth BeamSize ExplodeZ ExplodeXY g : Q) :
  g <= 0 ->
  exists list,
    build BoxW BoxH Depth BeamSize ExplodeZ ExplodeXY = Some list /\
    Forall (fun p => veq (position p g) (explodedPos p)) list.
Proof.
  intro Hg. eexists. split; [reflexivity |].
  each_part;
    (apply position_before;
     [reflexivity | apply Qle_trans with 0; [exact Hg | closed_num]]).
Qed.

Lemma exploded_before_start_witness :
  0 <= 0 /\
  exists list,
    build 2.8 1.9 0.8 0.14 5.0 2.5 = Some list /\
    Forall (fun p => veq (position p 0) (explodedPos p)) list.
Proof.
  split; [unfold Qle; simpl; lia |].
  apply exploded_before_start. unfold Qle; simpl; lia.
Defined.

(** X8: the parts whose window ends after progress 1 are the two side
    claddings and the glass; at progress 1 (or beyond) every other part
    of the layout has local and eased parameter 1, whatever the
    dimensions, so that each of its coordinates is
    [exploded + (assembled - exploded) * 1].  In binary64, with the
    dimensions of the source, that puts each of them within [tol] of
    its assembled position on every axis at progress 1. *)
Theorem assembled_at_end_except_late
        (BoxW BoxH Depth BeamSize ExplodeZ ExplodeXY g : Q) :
  1 <= g ->
  (exists list,
     build BoxW BoxH Depth BeamSize ExplodeZ ExplodeXY = Some list /\
     late list = ["clad-left"; "clad-right"; "glass"]%string /\
     Forall (fun p =>
               In (id p) (late list)
               \/ (localP p g == 1 /\
                   ease (localP p g) == 1 /\
                   forall ax,
                     coord ax (position p g)
                     == coord ax (explodedPos p)
                        + (coord ax (assembledPos p)
                           - coord ax (explodedPos p)) * 1))
            list) /\
  Forall (fun p =>
            In (F64.id p) ["clad-left"; "clad-right"; "glass"]%string
            \/ forall ax,
                 F64.near F64.tol
                   (F64.coord ax (F64.position p 1))
                   (F64.coord ax (F64.assembledPos p)))
         F64.parts.
Proof.
  intro Hg. split.
  - eexists. split; [reflexivity |].
    split; [reflexivity |].
    each_part;
      first [ right; apply after_window;
              [reflexivity
              | apply Qle_trans with 1; [closed_num | exact Hg]]
            | left; lazy; tauto ].
  - unfold F64.parts.
    let l := eval vm_compute in (F64.build 2.8 1.9 0.8 0.14 5.0 2.5) in
    change (F64.build 2.8 1.9 0.8 0.14 5.0 2.5) with l.
    each_part;
      first [ right; intros [| |]; vm_compute; reflexivity
            | left; vm_compute; tauto ].
Qed.

Lemma assembled_at_end_except_late_witness :
  1 <= 1 /\
  exists list,
    build 2.8 1.9 0.8 0.14 5.0 2.5 = Some list /\
    late list = ["clad-left"; "clad-right"; "glass"]%string /\
    Forall (fun p =>
              In (id p) (late list)
              \/ (localP p 1 == 1 /\
                  ease (localP p 1) == 1 /\
                  forall ax,
                    coord ax (position p 1)
                    == coord ax (explodedPos p)
                       + (coord ax (assembledPos p)
                          - coord ax (explodedPos p)) * 1))
           list.
Proof.
  split; [unfold Qle; simpl; lia |].
  apply (assembled_at_end_except_late 2.8 1.9 0.8 0.14 5.0 2.5 1).
  unfold Qle; simpl; lia.
Defined.

(** X9: with the dimensions of the source, the two side claddings and
    the glass are at no progress up to 1 at their assembled position. *)
Theorem late_parts_never_assembled (g : Q) :
  g <= 1 ->
  Forall (fun p => In (id p) (late parts) ->
                   ~ veq (position p g) (assembledPos p)) parts.
Proof.
  intro Hg.
  each_part; intros Hin Hv;
    first
      [ solve [lazy in Hin; intuition discriminate]
      | apply assembled_only_after in Hv;
        [ match type of Hv with
          | ?w <= _ =>
              assert (Hw : 1 < w) by closed_num; lra
          end
        | reflexivity
        | intros (_ & _ & Hz); lazy in Hz; discriminate ] ].
Qed.

Lemma late_parts_never_assembled_witness :
  1 <= 1 /\
  Forall (fun p => In (id p) (late parts) ->
                   ~ veq (position p 1) (assembledPos p)) parts.
Proof.
  split; [unfold Qle; simpl; lia |].
  apply late_parts_never_assembled. unfold Qle; simpl; lia.
Defined.

(** X10: the two wall rails never move: at every progress each is
    where it is at progress 0, which is its assembled position. *)
Theorem rails_never_move
        (BoxW BoxH Depth BeamSize ExplodeZ ExplodeXY g : Q) :
  exists list,
    build BoxW BoxH Depth BeamSize ExplodeZ ExplodeXY = Some list /\
    still list "rail-left" g /\ still list "rail-right" g.
Proof.
  eexists. split; [reflexivity |].
  split; (eexists; split; [reflexivity |]);
    expose_position; repeat split; ring.
Qed.

(** X11: the layout is mirror-symmetric about the plane [x = 0]
    throughout the animation: each right part has the box and the
    timing of its left counterpart, and at every progress its position
    is the mirror image of the left one's. *)
Theorem left_right_mirrored
        (BoxW BoxH Depth BeamSize ExplodeZ ExplodeXY g : Q) :
  exists list,
    build BoxW BoxH Depth BeamSize ExplodeZ ExplodeXY = Some list /\
    Forall (mirrored list g) mirrorPairs.
Proof.
  eexists. split; [reflexivity |].
  each_part;
    (do 2 eexists;
     split; [reflexivity |]; split; [reflexivity |];
     split; [repeat split; reflexivity |];
     split; [reflexivity |]; split; [reflexivity |];
     expose_position; repeat split; field).
Qed.

(** X12: at progress 1, in binary64 and with the dimensions of the
    source, the top cladding sits on the two top beams and the bottom
    cladding under the two bottom beams up to rounding (the faces are
    within [tol] of each other; the top cladding's lower face is not
    the beams' upper face exactly), while each side cladding stands off
    the outer faces of its beams by more than 0.018867 and less than
    0.018868, because its window ends at 1.05. *)
Theorem cladding_seats :
  let CT := F64.get "clad-top" in
  let CB := F64.get "clad-bot" in
  let CL := F64.get "clad-left" in
  let CR := F64.get "clad-right" in
  let TL := F64.get "beam-tl" in
  let TR := F64.get "beam-tr" in
  let BL := F64.get "beam-bl" in
  let BR := F64.get "beam-br" in
  let standsOff (gap : float) : Prop :=
    PrimFloat.ltb 0.018867 gap = true /\
    PrimFloat.ltb gap 0.018868 = true in
  (F64.near F64.tol (F64.lo Y CT 1) (F64.hi Y TL 1) /\
   F64.near F64.tol (F64.lo Y CT 1) (F64.hi Y TR 1) /\
   F64.near F64.tol (F64.hi Y CB 1) (F64.lo Y BL 1) /\
   F64.near F64.tol (F64.hi Y CB 1) (F64.lo Y BR 1)) /\
  ~ F64.same (F64.lo Y CT 1) (F64.hi Y TL 1) /\
  (standsOff (PrimFloat.sub (F64.lo X TL 1) (F64.hi X CL 1)) /\
   standsOff (PrimFloat.sub (F64.lo X BL 1) (F64.hi X CL 1)) /\
   standsOff (PrimFloat.sub (F64.lo X CR 1) (F64.hi X TR 1)) /\
   standsOff (PrimFloat.sub (F64.lo X CR 1) (F64.hi X BR 1))).
Proof.
  cbv zeta.
  split; [repeat split; vm_compute; reflexivity |].
  split; [vm_compute; discriminate |].
  repeat split; vm_compute; reflexivity.
Qed.

(** X13: every box of the layout has a positive extent along every
    axis exactly when the beam size and the depth are positive, the
    inner width [BoxW - 2 * BeamSize] exceeds 0.29 and the inner height
    [BoxH - 2 * BeamSize] exceeds 0.34 (the room the timber frame and
    the glass need). *)
Theorem solid_iff_dimensions
        (BoxW BoxH Depth BeamSize ExplodeZ ExplodeXY : Q) :
  exists list,
    build BoxW BoxH Depth BeamSize ExplodeZ ExplodeXY = Some list /\
    (Forall solid list <->
     0 < BeamSize /\ 0 < Depth /\
     0.29 < BoxW - 2 * BeamSize /\ 0.34 < BoxH - 2 * BeamSize).
Proof.
  eexists. split; [reflexivity |]. split.
  - intro H. rewrite Forall_forall in H.
    assert (Hin : forall k p, find k _ = Some p -> solid p)
      by (intros k p Hf; apply H; exact (proj1 (find_some _ _ Hf))).
    pose proof (Hin "beam-tl"%string _ eq_refl) as Hb.
    pose proof (Hin "win-left"%string _ eq_refl) as Hw.
    pose proof (Hin "glass"%string _ eq_refl) as Hg.
    revert Hb Hw Hg. unfold solid. dims. intros. lra.
  - intros (HB & HD & HW & HH).
    each_part; unfold solid; dims; repeat split; lra.
Qed.

Lemma solid_iff_dimensions_witness : Forall solid parts.
Proof.
  destruct (solid_iff_dimensions 2.8 1.9 0.8 0.14 5.0 2.5)
    as (list & Hb & _ & H).
  assert (E : list = parts)
    by (apply (f_equal (fun o => match o with Some l => l | None => [] end))
          in Hb; symmetry; exact Hb).
  rewrite <- E. apply H. repeat split.
Defined.

(** X14: the refinement pass changes only the box and the assembled
    position of parts, and of these only those of the top, left and
    right insulation panels: every other id, the sill panel included
    (it is overwritten four times and ends as it began), looks up as
    before the pass. *)
Theorem refine_keeps_rest
        (BoxW BoxH Depth BeamSize ExplodeZ ExplodeXY : Q) :
  let pushed := firstPass BoxW BoxH Depth BeamSize ExplodeZ ExplodeXY in
  exists refined,
    refine BoxW BoxH Depth BeamSize pushed = Some refined /\
    Forall2 sameBut pushed refined /\
    find "yellow-bot" refined = find "yellow-bot" pushed /\
    forall k,
      k <> "yellow-top"%string -> k <> "yellow-left"%string ->
      k <> "yellow-right"%string ->
      find k refined = find k pushed.
Proof.
  intro pushed. eexists. split; [reflexivity |].
  split.
  - repeat apply Forall2_cons; [.. | apply Forall2_nil];
      repeat split.
  - split; [reflexivity |].
    intros k H1 H2 H3. unfold find, pushed.
    match goal with
    | |- List.find ?f ?A = List.find ?f ?B =>
        let a := eval cbv -[Qplus Qminus Qmult Qdiv Qopp Qinv] in A in
        let b := eval cbv -[Qplus Qminus Qmult Qdiv Qopp Qinv] in B in
        change (List.find f a = List.find f b)
    end.
    cbn [List.find id].
    repeat match goal with
    | |- context [String.eqb ?a k] =>
        destruct (String.eqb_spec a k);
        [first [reflexivity | congruence] |]
    end.
    reflexivity.
Qed.

Lemma refine_keeps_rest_witness :
  let pushed := firstPass 2.8 1.9 0.8 0.14 5.0 2.5 in
  exists refined,
    refine 2.8 1.9 0.8 0.14 pushed = Some refined /\
    find "beam-tl" refined = find "beam-tl" pushed.
Proof.
  intro pushed.
  destruct (refine_keeps_rest 2.8 1.9 0.8 0.14 5.0 2.5)
    as (refined & Hr & _ & _ & Hk).
  exists refined. split; [exact Hr |].
  apply Hk; discriminate.
Defined.

End SceneSpec.

(** ** The loop: events, effect and frames *)

Module LoopFacts.

Import Num NumFacts App AppFacts AppLoop.

Lemma init_inv : invariant init.
Proof.
  unfold invariant, inUnit. simpl. repeat split; try reflexivity;
    try (lazy; discriminate).
Qed.

(** The effect ties the frame request and the timestamp to the play
    flag and touches nothing else. *)
Lemma effect_inv (now : Q) (s : State) :
  uiProgress s == 100 * progressRef s ->
  inUnit (progressRef s) ->
  0.1 <= speed s /\ speed s <= 2.0 ->
  invariant (effect now s).
Proof.
  intros Hu Hp Hs. unfold invariant, effect.
  destruct (isPlaying s) eqn:E; simpl; rewrite ?E;
    repeat split; try assumption; try tauto; try discriminate;
    try apply Hp; try apply Hs.
Qed.

Lemma frame_increment (time t0 sp : Q) :
  t0 <= time -> 0 <= sp -> 0 <= (time - t0) / 1000 * sp / 3.
Proof.
  intros Ht Hs.
  setoid_replace ((time - t0) / 1000 * sp / 3)
    with ((1#3000) * ((time - t0) * sp)) by field.
  assert (0 <= (time - t0) * sp) by (apply Qmult_le_0_compat; lra).
  lra.
Qed.

Lemma handle_inv (ev : Event) (s : State) :
  invariant s -> delivered s ev ->
  uiProgress (handle ev s) == 100 * progressRef (handle ev s) /\
  inUnit (progressRef (handle ev s)) /\
  (0.1 <= speed (handle ev s) /\ speed (handle ev s) <= 2.0).
Proof.
  intros (Hf & Hl & Hu & [Hp0 Hp1] & [Hs0 Hs1]) Hd.
  unfold inUnit.
  destruct ev as [| | v | v | time]; simpl in *.
  - unfold handlePlayPause.
    destruct (negb (isPlaying s) && geb (progressRef s) 1); simpl;
      repeat split; try assumption; lra.
  - repeat split; try assumption; lra.
  - destruct Hd as [Hv0 Hv1]. repeat split; try assumption.
    + field.
    + apply Qle_shift_div_l; lra.
    + apply Qle_shift_div_r; lra.
  - repeat split; try assumption; apply Hd.
  - destruct (frameRequested s); [| repeat split; assumption].
    unfold animate.
    destruct (lastTimeRef s) as [t0 |]; [| repeat split; assumption].
    pose proof (frame_increment time t0 (speed s) Hd) as Hinc.
    destruct (ltb_cases (progressRef s) 1) as [[-> L] | [-> L]]; simpl.
    + split_tests; repeat split; try assumption; lra.
    + repeat split; try assumption; lra.
Qed.

Lemma Qeq_bool_same (x : Q) : Qeq_bool x x = true.
Proof. apply Qeq_bool_iff. reflexivity. Qed.

Lemma dispatch_inv (now : Q) (ev : Event) (s : State) :
  invariant s -> delivered s ev -> invariant (dispatch now ev s).
Proof.
  intros HI Hd.
  destruct (handle_inv ev s HI Hd) as (Hu & Hp & Hs).
  unfold dispatch.
  destruct (depsChanged s (handle ev s)) eqn:Hdep;
    [apply effect_inv; assumption |].
  destruct HI as (Hf & Hl & _).
  unfold invariant. repeat split; try assumption; try apply Hp; try apply Hs.
  all: unfold depsChanged in Hdep;
    apply orb_false_elim in Hdep; destruct Hdep as [Hplay _];
    apply negb_false_iff, eqb_prop in Hplay.
  all: destruct ev as [| | v | v | time]; simpl in *.
  all: try (unfold handlePlayPause in *; simpl in *;
            destruct (isPlaying s); simpl in *; discriminate).
  all: try (rewrite <- Hplay; tauto).
  all: try congruence.
  all: destruct (frameRequested s) eqn:Hfr; try tauto; try congruence.
  all: unfold animate in *;
    destruct (lastTimeRef s) as [t0 |] eqn:Hlast;
    [ destruct (ltb (progressRef s) 1); simpl in * | simpl in * ].
  all: try congruence.
  all: try (split; intros; congruence).
  all: try (destruct Hl as [Hl1 Hl2]; rewrite <- Hf in *;
            try (specialize (Hl1 eq_refl)); discriminate).
Qed.

Lemma reachable_inv (s : State) : reachable s -> invariant s.
Proof.
  induction 1 as [| s now ev _ IH Hd].
  - exact init_inv.
  - apply dispatch_inv; assumption.
Qed.

Ltac fields :=
  cbn [isPlaying uiProgress speed progressRef frameRequested lastTimeRef].

(** The effect establishes [looping]. *)
Lemma effect_looping (now : Q) (s : State) : looping (effect now s).
Proof.
  unfold looping, effect.
  destruct (isPlaying s) eqn:E; fields; rewrite ?E;
    repeat split; try reflexivity; intros; discriminate.
Qed.

(** Every event keeps [looping], whatever it carries. *)
Lemma dispatch_looping (now : Q) (ev : Event) (s : State) :
  looping s -> looping (dispatch now ev s).
Proof.
  intros [Hf Hl]. unfold dispatch.
  destruct (depsChanged s (handle ev s)) eqn:Hdep;
    [apply effect_looping |].
  unfold depsChanged in Hdep.
  apply orb_false_elim in Hdep. destruct Hdep as [Hplay _].
  apply negb_false_iff, eqb_prop in Hplay.
  destruct s as [pl ui sp pr fr lt].
  unfold looping in *. cbn in Hf, Hl. subst fr.
  destruct ev as [| | v | v | time];
    cbn [handle] in *.
  - unfold handlePlayPause in Hplay. cbn in Hplay.
    destruct pl; discriminate.
  - unfold handleReset in *. cbn in Hplay. subst pl. cbn. exact (conj eq_refl Hl).
  - unfold handleSeek in *. cbn in Hplay. subst pl. cbn. exact (conj eq_refl Hl).
  - unfold setSpeed. cbn. exact (conj eq_refl Hl).
  - cbn [frameRequested] in *.
    destruct pl; [| cbn; exact (conj eq_refl Hl)].
    unfold animate in *. cbn [lastTimeRef] in *.
    destruct lt as [t0 |].
    + cbn [progressRef] in *.
      destruct (ltb pr 1); cbn in *; [| discriminate].
      split; [reflexivity |]. split; intro; discriminate.
    + cbn. split; [reflexivity |]. split; intro; discriminate.
Qed.

Lemma reachableAny_looping (s : State) : reachableAny s -> looping s.
Proof.
  induction 1 as [| s now ev _ IH].
  - unfold looping. cbn. repeat split; reflexivity.
  - apply dispatch_looping. exact IH.
Qed.

(** The effect leaves the slider value and the progress alone. *)
Lemma effect_inSync (now : Q) (s : State) : inSync s -> inSync (effect now s).
Proof.
  unfold inSync, effect. destruct (isPlaying s); fields; tauto.
Qed.

Lemma handle_inSync (ev : Event) (s : State) :
  inSync s -> inSync (handle ev s).
Proof.
  unfold inSync. intro H.
  destruct ev as [| | v | v | time]; cbn [handle].
  - unfold handlePlayPause.
    destruct (negb (isPlaying s) && geb (progressRef s) 1); fields;
      [left; reflexivity | exact H].
  - unfold handleReset. fields. left. reflexivity.
  - unfold handleSeek. fields. right. reflexivity.
  - unfold setSpeed. fields. exact H.
  - destruct (frameRequested s); [| exact H].
    unfold animate.
    destruct (lastTimeRef s) as [t0 |]; [| fields; exact H].
    destruct (ltb (progressRef s) 1); fields; left; reflexivity.
Qed.

Lemma reachableAny_inSync (s : State) : reachableAny s -> inSync s.
Proof.
  induction 1 as [| s now ev _ IH].
  - left. reflexivity.
  - unfold dispatch.
    destruct (depsChanged s (handle ev s));
      [apply effect_inSync |]; apply handle_inSync; exact IH.
Qed.

(** Pressing the button while playing pauses and clears the loop. *)
Lemma press_pause (now : Q) (s : State) :
  isPlaying s = true ->
  dispatch now PressPlayPause s
  = mkState false (uiProgress s) (speed s) (progressRef s) false None.
Proof.
  intro H. destruct s as [pl ui sp pr fr lt]. cbn in H. subst pl.
  unfold dispatch, handle, handlePlayPause, depsChanged, effect.
  fields. cbn [negb andb Bool.eqb orb]. fields. reflexivity.
Qed.

(** Pressing the button while paused below completion starts the loop
    at [now]. *)
Lemma press_play (now : Q) (s : State) :
  isPlaying s = false -> progressRef s < 1 ->
  dispatch now PressPlayPause s
  = mkState true (uiProgress s) (speed s) (progressRef s) true (Some now).
Proof.
  intros H Hp. apply ltb_ge_false in Hp.
  destruct s as [pl ui sp pr fr lt]. cbn in H, Hp. subst pl.
  unfold dispatch, handle, handlePlayPause, depsChanged, effect.
  fields. rewrite Hp. cbn [negb andb Bool.eqb orb]. fields. reflexivity.
Qed.

(** A frame below completion while a request is outstanding. *)
Lemma frame_advances (now time t0 : Q) (s : State) :
  frameRequested s = true -> lastTimeRef s = Some t0 ->
  progressRef s < 1 ->
  progressRef (dispatch now (Frame time) s)
  = Num.min (progressRef s + (time - t0) / 1000 * speed s / 3) 1.
Proof.
  intros Hf Hl Hp. apply ltb_lt in Hp.
  destruct s as [pl ui sp pr fr lt]. cbn in Hf, Hl, Hp. subst fr lt.
  unfold dispatch, handle, animate, depsChanged, effect.
  fields. rewrite Hp. fields.
  rewrite eqb_reflx, Qeq_bool_same. cbn [negb orb]. fields. reflexivity.
Qed.

(** Moving the speed slider to a different value while playing. *)
Lemma drag_speed (now value : Q) (s : State) :
  isPlaying s = true -> ~ speed s == value ->
  dispatch now (DragSpeed value) s
  = mkState true (uiProgress s) value (progressRef s) true (Some now).
Proof.
  intros H Hne.
  assert (Hq : Qeq_bool (speed s) value = false).
  { apply not_true_iff_false. intro E. apply Hne.
    now apply Qeq_bool_iff. }
  destruct s as [pl ui sp pr fr lt]. cbn in H, Hq. subst pl.
  unfold dispatch, handle, setSpeed, depsChanged, effect.
  fields. rewrite Hq. cbn [negb andb Bool.eqb orb]. fields. reflexivity.
Qed.

End LoopFacts.

Module LoopSpec.

Import Num NumFacts App AppFacts AppLoop LoopFacts.

(** X18: in every state the application reaches through its handlers,
    the effect and the frame callbacks, whatever the slider values and
    the timestamps of the frames, a frame callback is outstanding
    exactly while playing and a previous timestamp is recorded exactly
    while playing; so a frame callback never runs without the
    timestamp it measures from. *)
Theorem loop_runs_iff_playing (s : State) :
  reachableAny s ->
  frameRequested s = isPlaying s /\
  (lastTimeRef s = None <-> isPlaying s = false) /\
  (frameRequested s = true -> running s).
Proof.
  intro H. destruct (reachableAny_looping s H) as (Hf & Hl).
  split; [exact Hf |]. split; [exact Hl |].
  intros Hr Hn. apply Hl in Hn. congruence.
Qed.

Lemma loop_runs_iff_playing_witness :
  let s :=
    dispatch 5 (Frame (-15)) (dispatch 0 PressPlayPause init) in
  frameRequested s = isPlaying s /\
  (lastTimeRef s = None <-> isPlaying s = false) /\
  (frameRequested s = true -> running s).
Proof.
  intro s. apply loop_runs_iff_playing.
  apply any_step, any_step, any_init.
Defined.

(** X19: in every state the application reaches, whatever the slider
    values and the timestamps, the slider value and the internal
    progress are in step by one of the two assignments of the source:
    the slider shows [progress * 100] (after a frame, a reset, a
    rewind), or the progress is [slider / 100] (after a seek). *)
Theorem slider_in_sync (s : State) :
  reachableAny s ->
  uiProgress s = progressRef s * 100 \/
  progressRef s = uiProgress s / 100.
Proof.
  intro H. exact (reachableAny_inSync s H).
Qed.

Lemma slider_in_sync_witness :
  let s := dispatch 2 (DragProgress 7) (dispatch 0 PressPlayPause init) in
  let s' := dispatch 900 (Frame 900) (dispatch 0 PressPlayPause init) in
  (uiProgress s = progressRef s * 100 \/
   progressRef s = uiProgress s / 100) /\
  (uiProgress s' = progressRef s' * 100 \/
   progressRef s' = uiProgress s' / 100).
Proof.
  intros s s'. split; apply slider_in_sync;
    apply any_step, any_step, any_init.
Defined.

(** X20: with the inputs the controls deliver (slider values within
    their ranges, frames not stamped before the recorded timestamp),
    every state the application reaches has its progress within [0,1],
    its slider value within [0,100] and its speed within [0.1,2]. *)
Theorem reachable_ranges (s : State) :
  reachable s ->
  inUnit (progressRef s) /\
  (0 <= uiProgress s /\ uiProgress s <= 100) /\
  (0.1 <= speed s /\ speed s <= 2.0).
Proof.
  intro H.
  destruct (reachable_inv s H) as (_ & _ & Hu & [Hp0 Hp1] & Hs).
  split; [split; assumption |]. split; [| exact Hs].
  rewrite Hu. split; lra.
Qed.

Lemma reachable_ranges_witness :
  let s := dispatch 1 (Frame 900) (dispatch 0 PressPlayPause init) in
  inUnit (progressRef s) /\
  (0 <= uiProgress s /\ uiProgress s <= 100) /\
  (0.1 <= speed s /\ speed s <= 2.0).
Proof.
  intro s. apply reachable_ranges.
  apply reach_step;
    [apply reach_step; [apply reach_init | exact I] |].
  vm_compute; discriminate.
Defined.

(** X22: time spent paused is not counted: after a pause at [t1] and a
    resume at [t2] below completion, the next frame, stamped [t3],
    advances progress by [(t3 - t2) / 1000 * speed / 3], whatever [t1]
    and the timestamp recorded before the pause. *)
Theorem pause_not_counted (t1 t2 t3 now : Q) (s : State) :
  isPlaying s = true -> progressRef s < 1 ->
  progressRef
    (dispatch now (Frame t3)
       (dispatch t2 PressPlayPause (dispatch t1 PressPlayPause s)))
  = Num.min (progressRef s + (t3 - t2) / 1000 * speed s / 3) 1.
Proof.
  intros Hplay Hp.
  rewrite (press_pause t1 s Hplay).
  rewrite press_play by (fields; assumption || reflexivity).
  fields.
  rewrite (frame_advances now t3 t2)
    by (fields; assumption || reflexivity).
  reflexivity.
Qed.

Lemma pause_not_counted_witness :
  let s := dispatch 300 (Frame 300) (dispatch 0 PressPlayPause init) in
  isPlaying s = true /\ progressRef s < 1 /\
  progressRef
    (dispatch 9300 (Frame 9300)
       (dispatch 9000 PressPlayPause (dispatch 600 PressPlayPause s)))
  = Num.min (progressRef s + (9300 - 9000) / 1000 * speed s / 3) 1.
Proof.
  intro s. split; [reflexivity |]. split; [vm_compute; reflexivity |].
  apply pause_not_counted; [reflexivity | vm_compute; reflexivity].
Defined.

(** X23: moving the speed slider to a different value while playing
    below completion restarts the clock: the next frame, stamped [t],
    advances progress by [(t - t1) / 1000 * value / 3] from the time
    [t1] of the change, at the new speed; the time since the frame
    before the change is dropped. *)
Theorem speed_change_restarts_clock (t1 t now value : Q) (s : State) :
  isPlaying s = true -> progressRef s < 1 -> ~ speed s == value ->
  progressRef (dispatch now (Frame t) (dispatch t1 (DragSpeed value) s))
  = Num.min (progressRef s + (t - t1) / 1000 * value / 3) 1.
Proof.
  intros Hplay Hp Hne.
  rewrite (drag_speed t1 value s Hplay Hne).
  rewrite (frame_advances now t t1)
    by (fields; assumption || reflexivity).
  reflexivity.
Qed.

Lemma speed_change_restarts_clock_witness :
  let s := dispatch 300 (Frame 300) (dispatch 0 PressPlayPause init) in
  progressRef (dispatch 400 (Frame 400) (dispatch 390 (DragSpeed 2) s))
  = Num.min (progressRef s + (400 - 390) / 1000 * 2 / 3) 1.
Proof.
  intro s. apply speed_change_restarts_clock.
  - reflexivity.
  - vm_compute; reflexivity.
  - vm_compute; discriminate.
Defined.

(** X24: below completion, pressing play/pause twice in a row, each
    press followed by its re-render, returns a paused application to
    the state it started from; a playing application comes back
    playing with the same progress, slider value and speed, a frame
    requested, and its clock restarted at the time of the second
    press. *)
Theorem playPause_twice (t1 t2 : Q) (s : State) :
  reachableAny s -> progressRef s < 1 ->
  (isPlaying s = false ->
   dispatch t2 PressPlayPause (dispatch t1 PressPlayPause s) = s) /\
  (isPlaying s = true ->
   dispatch t2 PressPlayPause (dispatch t1 PressPlayPause s)
   = mkState true (uiProgress s) (speed s) (progressRef s)
             true (Some t2)).
Proof.
  intros Hr Hp. destruct (reachableAny_looping s Hr) as [Hf Hl].
  split; intro Hplay.
  - rewrite (press_play t1 s Hplay Hp).
    rewrite press_pause by reflexivity. fields.
    destruct s as [pl ui sp pr fr lt]. cbn in *. subst pl fr.
    rewrite (proj2 Hl eq_refl). reflexivity.
  - rewrite (press_pause t1 s Hplay).
    rewrite press_play by (fields; assumption || reflexivity).
    fields. reflexivity.
Qed.

Lemma playPause_twice_witness :
  let paused := dispatch 2 (DragProgress 40) init in
  let playing := dispatch 300 (Frame 300) (dispatch 0 PressPlayPause init) in
  dispatch 9000 PressPlayPause (dispatch 600 PressPlayPause paused)
  = paused /\
  dispatch 9000 PressPlayPause (dispatch 600 PressPlayPause playing)
  = mkState true (uiProgress playing) (speed playing)
            (progressRef playing) true (Some 9000).
Proof.
  intros paused playing. split.
  - apply playPause_twice;
      [apply any_step, any_init | vm_compute; reflexivity | reflexivity].
  - apply playPause_twice;
      [apply any_step, any_step, any_init
      | vm_compute; reflexivity | reflexivity].
Defined.

End LoopSpec.
